(** * Sudoku as a binary feasibility problem: the model builder and the decoder

    A shallow embedding of [Project_1.py]: the functions that add the
    constraint families to a PuLP problem, the decoder [extract_solution],
    the printer and the driver [solve_sudoku], followed by the properties of
    the encoding.

    Python integers are [Z]; lists are [list]; the dictionaries of the
    program (insertion ordered) are association lists.  Code that can raise
    lives in an error monad; code that also mutates an object (the problem,
    the solution grid, the standard output) lives in a state monad in which
    the state survives an exception, as a mutated Python object does. *)

From Stdlib Require Import ZArith List String Ascii Bool Lia Permutation Finite Sorted.
From Stdlib Require Import DecimalString.
Import ListNotations.

Local Open Scope Z_scope.

Notation "s +++ t" := (String.append s t)
  (at level 60, right associativity) : string_scope.

(** ** Python values and exceptions *)

Inductive Exn : Type :=
| IndexError
| KeyError
| PulpError (msg : string).

Definition result (A : Type) : Type := (Exn + A)%type.

Definition rbind {A B : Type} (r : result A) (k : A -> result B) : result B :=
  match r with
  | inl e => inl e
  | inr a => k a
  end.

(** A list comprehension whose element expression may raise. *)
Fixpoint comprehension {A B : Type} (f : A -> result B) (xs : list A)
  : result (list B) :=
  match xs with
  | [] => inr []
  | x :: xs' =>
      rbind (f x) (fun y =>
      rbind (comprehension f xs') (fun ys => inr (y :: ys)))
  end.

(** [range(lo, hi)] *)
Definition range (lo hi : Z) : list Z :=
  map (fun i => lo + Z.of_nat i) (seq 0 (Z.to_nat (hi - lo))).

(** [str(n)] on an integer.  Python refuses to print an integer of more
    than 4300 digits ([ValueError]); here every integer is printed, so a
    statement about printing a grid of arbitrary entries carries
    [entries_bounded]. *)
Definition str (n : Z) : string := NilZero.string_of_int (Z.to_int n).

(** [l[i]] on a list: negative indices count from the end, anything out of
    range raises [IndexError]. *)
Definition getitem {A : Type} (l : list A) (i : Z) : result A :=
  let n := Z.of_nat (List.length l) in
  let j := if i <? 0 then i + n else i in
  if (j <? 0) || (n <=? j) then inl IndexError
  else match nth_error l (Z.to_nat j) with
       | Some x => inr x
       | None => inl IndexError
       end.

Fixpoint replace_nth {A : Type} (n : nat) (l : list A) (x : A) : list A :=
  match l, n with
  | [], _ => []
  | _ :: t, O => x :: t
  | h :: t, S n' => h :: replace_nth n' t x
  end.

(** [l[i] = x] on a list. *)
Definition setitem {A : Type} (l : list A) (i : Z) (x : A) : result (list A) :=
  let n := Z.of_nat (List.length l) in
  let j := if i <? 0 then i + n else i in
  if (j <? 0) || (n <=? j) then inl IndexError
  else inr (replace_nth (Z.to_nat j) l x).

(** Dictionaries keyed by integers, in insertion order; [d[k]] raises
    [KeyError] on a missing key. *)
Definition dict (V : Type) : Type := list (Z * V).

Fixpoint dict_get {V : Type} (d : dict V) (k : Z) : result V :=
  match d with
  | [] => inl KeyError
  | (k', v) :: d' => if k =? k' then inr v else dict_get d' k
  end.

(** ** State with exceptions

    [M S A] is a computation over a mutable object of type [S]; an exception
    leaves the object as it was when it was raised. *)

Definition M (S A : Type) : Type := S -> result A * S.

Definition ret {S A : Type} (a : A) : M S A := fun s => (inr a, s).

Definition bind {S A B : Type} (m : M S A) (k : A -> M S B) : M S B :=
  fun s =>
    match m s with
    | (inl e, s') => (inl e, s')
    | (inr a, s') => k a s'
    end.

Definition lift {S A : Type} (r : result A) : M S A := fun s => (r, s).

Declare Scope monad_scope.
Delimit Scope monad_scope with monad.
Notation "x <- m ;; k" := (bind m (fun x => k))
  (at level 61, m at next level, right associativity) : monad_scope.
Notation "m ;; k" := (bind m (fun _ => k))
  (at level 61, right associativity) : monad_scope.
Local Open Scope monad_scope.

(** [for x in xs: body(x)] *)
Fixpoint for_each {S A : Type} (xs : list A) (body : A -> M S unit) : M S unit :=
  match xs with
  | [] => ret tt
  | x :: xs' => body x ;; for_each xs' body
  end.

(** ** The part of PuLP the program uses *)

Inductive LpCategory : Type := LpContinuous | LpInteger | LpBinary.

Record LpVariable : Type := mkVar {
  vname : string;
  vcat : LpCategory
}.

(** A linear expression: its terms, variable and coefficient.  No sum of
    the program mentions a variable twice, so terms are never merged. *)
Definition LpAffineExpression : Type := list (LpVariable * Z).

(** [var] used as an expression, and [var * k] *)
Definition var_expr (x : LpVariable) : LpAffineExpression := [(x, 1)].
Definition var_times (x : LpVariable) (k : Z) : LpAffineExpression := [(x, k)].

Definition lpSum (es : list LpAffineExpression) : LpAffineExpression :=
  List.concat es.

Inductive LpSense : Type := LpConstraintLE | LpConstraintEQ | LpConstraintGE.

(** A constraint [e sense rhs] under its name.  The right-hand side is kept
    here as the integer it was given.  PuLP keeps it as a float: an integer
    of absolute value up to [2 ^ 53] stays what it is, a larger one may be
    rounded, and one beyond the float range makes the constructor raise
    [OverflowError].  A statement about what is built from a board of
    arbitrary entries therefore carries [entries_bounded]. *)
Record LpConstraint : Type := mkConstraint {
  cexpr : LpAffineExpression;
  csense : LpSense;
  crhs : Z;
  cname : string
}.

Record LpProblem : Type := mkProblem {
  pname : string;
  objective : LpAffineExpression;
  constraints : list LpConstraint
}.

(** [plp.LpProblem(name)] *)
Definition new_LpProblem (name : string) : LpProblem :=
  mkProblem name [] [].

Definition setObjective (e : LpAffineExpression) : M LpProblem unit :=
  fun p => (inr tt, mkProblem (pname p) e (constraints p)).

Definition has_name (name : string) (cs : list LpConstraint) : bool :=
  existsb (fun c => String.eqb (cname c) name) cs.

(** [prob.addConstraint(c)]: the constraints of a problem are keyed by name,
    and a problem refuses a name it already holds. *)
Definition addConstraint (c : LpConstraint) : M LpProblem unit :=
  fun p =>
    if has_name (cname c) (constraints p)
    then (inl (PulpError ("overlapping constraint names: " +++ cname c)%string), p)
    else (inr tt, mkProblem (pname p) (objective p) (constraints p ++ [c])).

(** [prob.constraints[name]] *)
Fixpoint get_constraint (cs : list LpConstraint) (name : string)
  : option LpConstraint :=
  match cs with
  | [] => None
  | c :: cs' => if String.eqb (cname c) name then Some c
                else get_constraint cs' name
  end.

(** [plp.LpVariable.dicts(name, (rows, cols, values), cat)]: a dictionary of
    dictionaries of dictionaries of fresh variables named
    [name_row_col_value]. *)
Definition GridVars : Type := dict (dict (dict LpVariable)).

Definition LpVariable_dicts (name : string) (rows cols values : list Z)
  (cat : LpCategory) : GridVars :=
  map (fun row => (row,
    map (fun col => (col,
      map (fun value => (value,
        mkVar (name +++ "_" +++ str row +++ "_" +++ str col
                    +++ "_" +++ str value)%string cat))
        values))
      cols))
    rows.

(** [grid_vars[row][col][value]] *)
Definition var_at (grid_vars : GridVars) (row col value : Z)
  : result LpVariable :=
  rbind (dict_get grid_vars row) (fun d1 =>
  rbind (dict_get d1 col) (fun d2 =>
  dict_get d2 value)).

(** The values a solver hands back, one number per variable;
    [plp.value(var)]. *)
Definition Assignment : Type := LpVariable -> Z.

(** Python truth of a number *)
Definition truthy (x : Z) : bool := negb (x =? 0).

(** [plp.LpStatus] *)
Definition LpStatus : dict string :=
  [ (0, "Not Solved"%string); (1, "Optimal"%string);
    (-1, "Infeasible"%string); (-2, "Unbounded"%string);
    (-3, "Undefined"%string) ].

(** ** add_default_sudoku_constraints *)

Definition add_default_sudoku_constraints (grid_vars : GridVars)
  (rows cols grids values : list Z) : M LpProblem unit :=
  (* only one value is filled for a cell *)
  for_each rows (fun row =>
    for_each cols (fun col =>
      xs <- lift (comprehension (fun value => var_at grid_vars row col value)
                                values) ;;
      addConstraint
        (mkConstraint (lpSum (map var_expr xs)) LpConstraintEQ 1
           ("constraint_sum_" +++ str row +++ "_" +++ str col)%string))) ;;
  (* values 1 to 9 are filled only once in a row *)
  for_each rows (fun row =>
    for_each values (fun value =>
      es <- lift (comprehension
                    (fun col => rbind (var_at grid_vars row col value)
                                  (fun x => inr (var_times x value)))
                    cols) ;;
      addConstraint
        (mkConstraint (lpSum es) LpConstraintEQ value
           ("constraint_uniq_row_" +++ str row +++ "_" +++ str value)%string))) ;;
  (* values 1 to 9 are filled only once in a column *)
  for_each cols (fun col =>
    for_each values (fun value =>
      es <- lift (comprehension
                    (fun row => rbind (var_at grid_vars row col value)
                                  (fun x => inr (var_times x value)))
                    rows) ;;
      addConstraint
        (mkConstraint (lpSum es) LpConstraintEQ value
           ("constraint_uniq_col_" +++ str col +++ "_" +++ str value)%string))) ;;
  (* values 1 to 9 are filled only once in the 3x3 grid *)
  for_each grids (fun grid =>
    let grid_row := Z.quot grid 3 in
    let grid_col := Z.modulo grid 3 in
    for_each values (fun value =>
      es <- lift (comprehension
                    (fun '(col, row) =>
                       rbind (var_at grid_vars (grid_row * 3 + row)
                                (grid_col * 3 + col) value)
                         (fun x => inr (var_times x value)))
                    (list_prod (range 0 3) (range 0 3))) ;;
      addConstraint
        (mkConstraint (lpSum es) LpConstraintEQ value
           ("constraint_uniq_grid_" +++ str grid +++ "_" +++ str value)%string))).

(** ** add_diagonal_sudoku_constraints *)

Definition add_diagonal_sudoku_constraints (grid_vars : GridVars)
  (rows cols values : list Z) : M LpProblem unit :=
  (* top-left to bottom-right *)
  for_each values (fun value =>
    es <- lift (comprehension
                  (fun row => rbind (var_at grid_vars row row value)
                                (fun x => inr (var_times x value)))
                  rows) ;;
    addConstraint
      (mkConstraint (lpSum es) LpConstraintEQ value
         ("constraint_uniq_diag1_" +++ str value)%string)) ;;
  (* top-right to bottom-left *)
  for_each values (fun value =>
    es <- lift (comprehension
                  (fun row =>
                     rbind (var_at grid_vars row
                              (Z.of_nat (List.length rows) - row - 1) value)
                       (fun x => inr (var_times x value)))
                  rows) ;;
    addConstraint
      (mkConstraint (lpSum es) LpConstraintEQ value
         ("constraint_uniq_diag2_" +++ str value)%string)).

(** ** add_prefilled_constraints *)

Definition Board : Type := list (list Z).

(** [grid[row][col]], for the board and for the solution *)
Definition item_at (grid : list (list Z)) (row col : Z) : result Z :=
  rbind (getitem grid row) (fun r => getitem r col).

Definition add_prefilled_constraints (input_sudoku : Board)
  (grid_vars : GridVars) (rows cols values : list Z) : M LpProblem unit :=
  for_each rows (fun row =>
    for_each cols (fun col =>
      p <- lift (item_at input_sudoku row col) ;;
      if negb (p =? 0) then
        es <- lift (comprehension
                      (fun value => rbind (var_at grid_vars row col value)
                                      (fun x => inr (var_times x value)))
                      values) ;;
        p' <- lift (item_at input_sudoku row col) ;;
        addConstraint
          (mkConstraint (lpSum es) LpConstraintEQ p'
             ("constraint_prefilled_" +++ str row +++ "_" +++ str col)%string)
      else ret tt)).

(** ** extract_solution *)

Definition Grid : Type := list (list Z).

(** [solution[row][col] = value] *)
Definition set_cell (row col value : Z) : M Grid unit :=
  fun solution =>
    match getitem solution row with
    | inl e => (inl e, solution)
    | inr r =>
        match setitem r col value with
        | inl e => (inl e, solution)
        | inr r' =>
            match setitem solution row r' with
            | inl e => (inl e, solution)
            | inr solution' => (inr tt, solution')
            end
        end
    end.

Definition extract_solution (value_of : Assignment) (grid_vars : GridVars)
  (rows cols values : list Z) : result Grid :=
  let solution := map (fun row => map (fun col => 0) cols) rows in
  match
    for_each rows (fun row =>
      for_each cols (fun col =>
        for_each values (fun value =>
          x <- lift (var_at grid_vars row col value) ;;
          if truthy (value_of x) then set_cell row col value else ret tt)))
      solution
  with
  | (inl e, _) => inl e
  | (inr _, solution') => inr solution'
  end.

(** ** print_solution *)

Definition Stdout : Type := string.

Definition nl : string := String "010"%char EmptyString.

(** [print(s, end=e)] *)
Definition print (s e : string) : M Stdout unit :=
  fun out => (inr tt, (out +++ s +++ e)%string).

Definition box_rule : string :=
  (nl +++ nl +++ "+ ----------- ++ ----------- ++ ----------- ++")%string.

Definition print_solution (solution : Grid) (rows cols : list Z)
  : M Stdout unit :=
  print (nl +++ "Final result:")%string nl ;;
  print box_rule ""%string ;;
  for_each rows (fun row =>
    print nl (nl +++ "|  ")%string ;;
    for_each cols (fun col =>
      let num_end := if (col + 1) mod 3 =? 0 then "  |  "%string
                     else "   "%string in
      x <- lift (item_at solution row col) ;;
      print (str x) num_end) ;;
    if (row + 1) mod 3 =? 0 then print box_rule ""%string else ret tt).

(** ** solve_sudoku *)

(** The index sets and the decision variables of [solve_sudoku]. *)
Definition rows : list Z := range 0 9.
Definition cols : list Z := range 0 9.
Definition grids : list Z := range 0 9.
Definition values : list Z := range 1 10.

Definition grid_vars : GridVars :=
  LpVariable_dicts "grid_value" rows cols values LpBinary.

(** The model-building part of [solve_sudoku], from the dummy objective to
    the prefilled constraints, acting on the problem [prob]. *)
Definition build_model (input_sudoku : Board) (diagonal : bool)
  : M LpProblem unit :=
  setObjective (lpSum []) ;;
  add_default_sudoku_constraints grid_vars rows cols grids values ;;
  (if diagonal
   then add_diagonal_sudoku_constraints grid_vars rows cols values
   else ret tt) ;;
  add_prefilled_constraints input_sudoku grid_vars rows cols values.

(** What the function hands back to its caller: Python's [None], or a
    grid. *)
Inductive Returned : Type :=
| PyNone
| PyGrid (solution : Grid).

Section Solver.

(** [prob.solve()], the external solver: it leaves a status code in the
    problem and a value in every variable. *)
Variable solve : LpProblem -> Z * Assignment.

Definition solve_sudoku (input_sudoku : Board) (diagonal : bool)
  : M Stdout Returned :=
  fun out =>
    match build_model input_sudoku diagonal (new_LpProblem "Sudoku_Solver")
          return result Returned * Stdout with
    | (inl e, _) => (inl e, out)
    | (inr _, prob) =>
        match solve prob return result Returned * Stdout with
        | (status, value_of) =>
            (solution_status <- lift (dict_get LpStatus status) ;;
             shown <- lift (dict_get LpStatus status) ;;
             print ("Solution Status = " +++ shown)%string nl ;;
             if String.eqb solution_status "Optimal" then
               solution <- lift (extract_solution value_of grid_vars
                                   rows cols values) ;;
               print_solution solution rows cols ;;
               ret PyNone
             else ret PyNone) out
        end
    end.

End Solver.

(** The board the script solves. *)
Definition normal_sudoku : Board :=
  [ [3;0;0;8;0;0;0;0;1];
    [0;0;0;0;0;2;0;0;0];
    [0;4;1;5;0;0;8;3;0];
    [0;2;0;0;0;1;0;0;0];
    [8;5;0;4;0;3;0;1;7];
    [0;0;0;7;0;0;0;2;0];
    [0;8;5;0;0;9;7;4;0];
    [0;0;0;1;0;0;0;0;0];
    [9;0;0;0;0;7;0;0;6] ].

(** ** Meaning of the model *)

Definition eval (a : Assignment) (e : LpAffineExpression) : Z :=
  fold_right (fun t acc => snd t * a (fst t) + acc) 0 e.

Definition satisfied (a : Assignment) (c : LpConstraint) : Prop :=
  match csense c with
  | LpConstraintLE => eval a (cexpr c) <= crhs c
  | LpConstraintEQ => eval a (cexpr c) = crhs c
  | LpConstraintGE => eval a (cexpr c) >= crhs c
  end.

Definition satisfiedb (a : Assignment) (c : LpConstraint) : bool :=
  match csense c with
  | LpConstraintLE => eval a (cexpr c) <=? crhs c
  | LpConstraintEQ => eval a (cexpr c) =? crhs c
  | LpConstraintGE => eval a (cexpr c) >=? crhs c
  end.

(** A binary variable takes the value 0 or 1. *)
Definition binary (a : Assignment) : Prop :=
  forall x, a x = 0 \/ a x = 1.

(** [g] has [R] rows of [C] entries and holds [f row col] at every index. *)
Definition represents (R C : Z) (g : Grid) (f : Z -> Z -> Z) : Prop :=
  Z.of_nat (List.length g) = R /\
  Forall (fun row => Z.of_nat (List.length row) = C) g /\
  forall r c, 0 <= r < R -> 0 <= c < C -> item_at g r c = inr (f r c).

Definition upd (f : Z -> Z -> Z) (r c v : Z) : Z -> Z -> Z :=
  fun r' c' => if (r' =? r) && (c' =? c) then v else f r' c'.

(** ** The decoder, cell by cell *)

(** One step of the scan of a cell: a true value overwrites what the cell
    holds. *)
Definition scan_step (value_of : Assignment) (var : Z -> Z -> Z -> LpVariable)
  (r c : Z) (held v : Z) : Z :=
  if truthy (value_of (var r c v)) then v else held.

(** What the scan over [vs] leaves in a cell that held [d]. *)
Definition scan (value_of : Assignment) (var : Z -> Z -> Z -> LpVariable)
  (vs : list Z) (r c : Z) (d : Z) : Z :=
  fold_left (scan_step value_of var r c) vs d.

(** After the columns [done] of row [r], the cells of these columns hold
    their scan and every other cell is untouched. *)
Definition row_done (value_of : Assignment) (var : Z -> Z -> Z -> LpVariable)
  (vs : list Z) (f : Z -> Z -> Z) (r : Z) (done : list Z) : Z -> Z -> Z :=
  fun r' c' =>
    if (r' =? r) && existsb (Z.eqb c') done
    then scan value_of var vs r c' (f r' c')
    else f r' c'.

(** After the rows [done], the cells of these rows hold their scan. *)
Definition rows_done (value_of : Assignment) (var : Z -> Z -> Z -> LpVariable)
  (cs vs : list Z) (f : Z -> Z -> Z) (done : list Z) : Z -> Z -> Z :=
  fun r' c' =>
    if existsb (Z.eqb r') done && existsb (Z.eqb c') cs
    then scan value_of var vs r' c' (f r' c')
    else f r' c'.

(** ** The variables of the grid *)

(** The variable [grid_vars[row][col][value]]. *)
Definition the_var (row col value : Z) : LpVariable :=
  mkVar ("grid_value" +++ "_" +++ str row +++ "_" +++ str col
            +++ "_" +++ str value)%string LpBinary.

(** The value the decoder leaves in a cell: the scan of the values from the
    initial 0. *)
Definition decode (value_of : Assignment) (row col : Z) : Z :=
  scan value_of the_var values row col 0.

(** ** Sums of binary variables *)

Definition total (a : Assignment) (xs : list LpVariable) : Z :=
  fold_right (fun x acc => a x + acc) 0 xs.

Definition count_ones (a : Assignment) (xs : list LpVariable) : nat :=
  List.length (filter (fun x => a x =? 1) xs).

(** ** Names already taken, names still free *)

Definition names (cs : list LpConstraint) : list string := map cname cs.

(** No constraint of [p] bears a name of [nm]. *)
Definition fresh (nm : list string) (p : LpProblem) : Prop :=
  forall n, In n nm -> ~ In n (names (constraints p)).

(** [p] with the constraints [l] added after its own. *)
Definition extend (p : LpProblem) (l : list LpConstraint) : LpProblem :=
  mkProblem (pname p) (objective p) (constraints p ++ l).

(** [m], run on any problem that holds none of the names [nm], ends with
    the outcome [r] and has added exactly the constraints [l], whose names
    are among [nm]. *)
Definition adds (m : M LpProblem unit) (nm : list string)
  (r : result unit) (l : list LpConstraint) : Prop :=
  incl (names l) nm /\
  forall p, fresh nm p -> m p = (r, extend p l).

(** The outcome and the additions of a loop, from those of its turns: the
    first turn that raises ends the loop. *)
Fixpoint run_trace {A : Type} (t : A -> result unit * list LpConstraint)
  (xs : list A) : result unit * list LpConstraint :=
  match xs with
  | [] => (inr tt, [])
  | x :: xs' =>
      match fst (t x) with
      | inl e => (inl e, snd (t x))
      | inr _ => (fst (run_trace t xs'), snd (t x) ++ snd (run_trace t xs'))
      end
  end.

Fixpoint nodupb (l : list string) : bool :=
  match l with
  | [] => true
  | x :: t => negb (existsb (String.eqb x) t) && nodupb t
  end.

(** ** The constraint families, as the specification words them

    One definition for each family of section 4.2 of the specification; the
    theorems [adds_default], [adds_diagonal] and [adds_prefilled] show that
    the builders of the program generate exactly these. *)

(** The cells of the groups. *)
Definition row_cells (row : Z) : list (Z * Z) := map (fun col => (row, col)) cols.
Definition col_cells (col : Z) : list (Z * Z) := map (fun row => (row, col)) rows.
Definition box_cells (grid : Z) : list (Z * Z) :=
  map (fun cr => (Z.quot grid 3 * 3 + snd cr, grid mod 3 * 3 + fst cr))
      (list_prod (range 0 3) (range 0 3)).
Definition diag1_cells : list (Z * Z) := map (fun row => (row, row)) rows.
Definition diag2_cells : list (Z * Z) :=
  map (fun row => (row, Z.of_nat (List.length rows) - row - 1)) rows.

(** One value per cell. *)
Definition sum_constraint (rc : Z * Z) : LpConstraint :=
  mkConstraint (map (fun value => (the_var (fst rc) (snd rc) value, 1)) values)
    LpConstraintEQ 1
    ("constraint_sum_" +++ str (fst rc) +++ "_" +++ str (snd rc))%string.

(** The weighted sum of the variables of [value] over a group equals
    [value]. *)
Definition uniq_constraint (group : list (Z * Z)) (value : Z) (name : string)
  : LpConstraint :=
  mkConstraint (map (fun rc => (the_var (fst rc) (snd rc) value, value)) group)
    LpConstraintEQ value name.

Definition row_constraint (rv : Z * Z) : LpConstraint :=
  uniq_constraint (row_cells (fst rv)) (snd rv)
    ("constraint_uniq_row_" +++ str (fst rv) +++ "_" +++ str (snd rv))%string.

Definition col_constraint (cv : Z * Z) : LpConstraint :=
  uniq_constraint (col_cells (fst cv)) (snd cv)
    ("constraint_uniq_col_" +++ str (fst cv) +++ "_" +++ str (snd cv))%string.

Definition grid_constraint (gv : Z * Z) : LpConstraint :=
  uniq_constraint (box_cells (fst gv)) (snd gv)
    ("constraint_uniq_grid_" +++ str (fst gv) +++ "_" +++ str (snd gv))%string.

Definition diag1_constraint (value : Z) : LpConstraint :=
  uniq_constraint diag1_cells value ("constraint_uniq_diag1_" +++ str value)%string.

Definition diag2_constraint (value : Z) : LpConstraint :=
  uniq_constraint diag2_cells value ("constraint_uniq_diag2_" +++ str value)%string.

(** The value [p] of a prefilled cell. *)
Definition prefilled_name (rc : Z * Z) : string :=
  ("constraint_prefilled_" +++ str (fst rc) +++ "_" +++ str (snd rc))%string.

Definition prefilled_constraint (rc : Z * Z) (p : Z) : LpConstraint :=
  mkConstraint (map (fun value => (the_var (fst rc) (snd rc) value, value)) values)
    LpConstraintEQ p (prefilled_name rc).

Definition sum_family : list LpConstraint := map sum_constraint (list_prod rows cols).
Definition row_family : list LpConstraint := map row_constraint (list_prod rows values).
Definition col_family : list LpConstraint := map col_constraint (list_prod cols values).
Definition grid_family : list LpConstraint := map grid_constraint (list_prod grids values).

Definition default_family : list LpConstraint :=
  sum_family ++ row_family ++ col_family ++ grid_family.

Definition diagonal_family : list LpConstraint :=
  map diag1_constraint values ++ map diag2_constraint values.

(** What a cell of the board contributes: nothing when it is 0, its
    constraint otherwise, an exception when the board has no such cell. *)
Definition prefilled_turn (input_sudoku : Board) (rc : Z * Z)
  : result unit * list LpConstraint :=
  match item_at input_sudoku (fst rc) (snd rc) with
  | inl e => (inl e, [])
  | inr p => if p =? 0 then (inr tt, []) else (inr tt, [prefilled_constraint rc p])
  end.

Definition prefilled_outcome (input_sudoku : Board) : result unit :=
  fst (run_trace (prefilled_turn input_sudoku) (list_prod rows cols)).

Definition prefilled_family (input_sudoku : Board) : list LpConstraint :=
  snd (run_trace (prefilled_turn input_sudoku) (list_prod rows cols)).

(** ** The model that [solve_sudoku] builds *)

Definition model_names : list string :=
  names default_family ++ names diagonal_family
    ++ map prefilled_name (list_prod rows cols).

Definition model_constraints (input_sudoku : Board) (diagonal : bool)
  : list LpConstraint :=
  default_family ++ (if diagonal then diagonal_family else [])
    ++ prefilled_family input_sudoku.

(** The board has an entry at [rc]. *)
Definition present (input_sudoku : Board) (rc : Z * Z) : bool :=
  match item_at input_sudoku (fst rc) (snd rc) with
  | inr _ => true
  | inl _ => false
  end.

(** The board has an entry at every cell the builder reads. *)
Definition has_cells (input_sudoku : Board) : bool :=
  forallb (present input_sudoku) (list_prod rows cols).

(** ** A solved grid as an assignment *)

(** The names of the variables a filled grid makes true. *)
Definition true_names (solution : Grid) : list string :=
  flat_map (fun rc =>
              match item_at solution (fst rc) (snd rc) with
              | inr v => [vname (the_var (fst rc) (snd rc) v)]
              | inl _ => []
              end)
           (list_prod rows cols).

(** The assignment that reads a filled grid: the variable of
    [(row, col, value)] is 1 exactly when the grid holds [value] there. *)
Definition assignment_of (solution : Grid) : Assignment :=
  let names := true_names solution in
  fun x => if existsb (String.eqb (vname x)) names then 1 else 0.

(** The solution of [normal_sudoku]. *)
Definition normal_solution : Grid :=
  [ [3;6;7;8;9;4;2;5;1];
    [5;9;8;3;1;2;6;7;4];
    [2;4;1;5;7;6;8;3;9];
    [7;2;3;9;8;1;4;6;5];
    [8;5;6;4;2;3;9;1;7];
    [4;1;9;7;6;5;3;2;8];
    [1;8;5;6;3;9;7;4;2];
    [6;7;2;1;4;8;5;9;3];
    [9;3;4;2;5;7;1;8;6] ].

(** ** What the decoder reads *)

(** [plp.value(grid_vars[row][col][value])] is true. *)
Definition reads_true (value_of : Assignment) (row col value : Z) : bool :=
  match var_at grid_vars row col value with
  | inr x => truthy (value_of x)
  | inl _ => false
  end.

(** ** The constraints the two builders generate *)

Definition default_constraints : list LpConstraint :=
  constraints (snd (add_default_sudoku_constraints grid_vars rows cols grids
                      values (new_LpProblem "Sudoku_Solver"))).

Definition diagonal_constraints : list LpConstraint :=
  constraints (snd (add_diagonal_sudoku_constraints grid_vars rows cols
                      values (new_LpProblem "Sudoku_Solver"))).

(** ** The weighted sum of a group *)

(** The groups of the board: rows, columns, boxes and the two diagonals. *)
Definition groups : list (list (Z * Z)) :=
  map row_cells rows ++ map col_cells cols ++ map box_cells grids
    ++ [diag1_cells; diag2_cells].

(** The variables of [value] over the cells of a group. *)
Definition group_vars (group : list (Z * Z)) (value : Z) : list LpVariable :=
  map (fun rc => the_var (fst rc) (snd rc) value) group.

Definition is_uniqueness (c : LpConstraint) : bool :=
  prefix "constraint_uniq_" (cname c).

(** The values a grid holds over the cells of a group. *)
Definition group_values (solution : Grid) (group : list (Z * Z))
  : result (list Z) :=
  comprehension (fun rc => item_at solution (fst rc) (snd rc)) group.

Definition permutation_of_values (solution : Grid) (group : list (Z * Z)) : Prop :=
  exists l, group_values solution group = inr l /\ Permutation l values.

(** ** What building does with the board it is given *)

Definition is_9x9 (input_sudoku : Board) : bool :=
  (List.length input_sudoku =? 9)%nat
  && forallb (fun row => (List.length row =? 9)%nat) input_sudoku.

Definition entries_valid (input_sudoku : Board) : bool :=
  forallb (fun p => (0 <=? p) && (p <=? 9)) (List.concat input_sudoku).

(** Every entry is an integer of absolute value at most [2 ^ 53]: such an
    entry is a float without loss, so PuLP keeps it exactly as a right-hand
    side, and [str] prints it. *)
Definition entries_bounded (input_sudoku : list (list Z)) : bool :=
  forallb (fun p => (- 2 ^ 53 <=? p) && (p <=? 2 ^ 53))
          (List.concat input_sudoku).

(** A board of ten rows of ten zeros, a 9x9 board with a 12 in its first
    cell, and the board with no row at all. *)
Definition board_10x10 : Board := repeat (repeat 0 10%nat) 10%nat.

Definition board_with_12 : Board :=
  [12; 0; 0; 0; 0; 0; 0; 0; 0] :: repeat (repeat 0 9%nat) 8%nat.

(** A problem left with a constraint of its own, under a name the model does
    not use. *)
Definition used_problem : LpProblem :=
  mkProblem "Earlier" []
    [mkConstraint [(the_var 0 0 1, 1)] LpConstraintEQ 1 "left_over"].

(** ** The size of the model *)

(** The variables [LpVariable.dicts] created, in the order of the
    dictionaries. *)
Definition all_vars : list LpVariable :=
  flat_map (fun d1 => flat_map (fun d2 => map snd (snd d2)) (snd d1)) grid_vars.





(** ** The model of a board and what solves it *)

(** The groups the default constraints range over: rows, columns, boxes. *)
Definition default_groups : list (list (Z * Z)) :=
  map row_cells rows ++ map col_cells cols ++ map box_cells grids.

(** The constraints [solve_sudoku] hands to the solver. *)
Definition model_of (input_sudoku : Board) (diagonal : bool)
  : list LpConstraint :=
  constraints (snd (build_model input_sudoku diagonal
                      (new_LpProblem "Sudoku_Solver"))).


(** ** Filled grids *)

(** A grid of 9 rows of 9 entries whose rows, columns and boxes, and whose
    diagonals when they count, are permutations of the values. *)
Definition valid_sudoku (solution : Grid) (diagonal : bool) : Prop :=
  List.length solution = 9%nat /\
  Forall (fun row => List.length row = 9%nat) solution /\
  (forall group, In group default_groups ->
     permutation_of_values solution group) /\
  (diagonal = true ->
     permutation_of_values solution diag1_cells /\
     permutation_of_values solution diag2_cells).

(** The grid holds every given of the board. *)
Definition agrees_with (input_sudoku : Board) (solution : Grid) : Prop :=
  forall row col p, In row rows -> In col cols ->
    item_at input_sudoku row col = inr p -> p <> 0 ->
    item_at solution row col = inr p.

(** Decidable forms of the two, for closed grids. *)
Definition same_values (l : list Z) : bool :=
  forallb (fun x => (count_occ Z.eq_dec l x =? count_occ Z.eq_dec values x)%nat)
          (l ++ values).

Definition permutation_of_valuesb (solution : Grid) (group : list (Z * Z)) : bool :=
  match group_values solution group with
  | inr l => same_values l
  | inl _ => false
  end.

Definition valid_sudokub (solution : Grid) (diagonal : bool) : bool :=
  is_9x9 solution
  && forallb (permutation_of_valuesb solution) default_groups
  && (negb diagonal
      || (permutation_of_valuesb solution diag1_cells
          && permutation_of_valuesb solution diag2_cells)).

Definition agrees_withb (input_sudoku : Board) (solution : Grid) : bool :=
  forallb (fun rc =>
             match item_at input_sudoku (fst rc) (snd rc) with
             | inl _ => true
             | inr p =>
                 (p =? 0)
                 || match item_at solution (fst rc) (snd rc) with
                    | inr q => q =? p
                    | inl _ => false
                    end
             end) (list_prod rows cols).

(** ** Programs that only print *)

(** The program leaves what was printed in front and prints [text] after
    it, whatever came before; [r] is its outcome. *)
Definition writes {A : Type} (m : M Stdout A) (r : result A) (text : string)
  : Prop :=
  forall out, m out = (r, (out +++ text)%string).

Definition cell_eqb (x y : Z * Z) : bool :=
  (fst x =? fst y) && (snd x =? snd y).

(** An assignment changed on a variable that is none of the program's. *)
Definition with_stray (a : Assignment) : Assignment :=
  fun x => if String.eqb (vname x) "stray" then 1 else a x.

(** * Properties *)

(** ** Ranges, lists and loops *)

Lemma in_range (lo hi x : Z) : In x (range lo hi) <-> lo <= x < hi.
Proof.
  unfold range. rewrite in_map_iff. split.
  - intros [i [<- Hi]]. apply in_seq in Hi. lia.
  - intros H. exists (Z.to_nat (x - lo)). split; [lia|].
    apply in_seq. lia.
Qed.

Lemma getitem_nonneg {A : Type} (l : list A) (i : Z) :
  0 <= i ->
  getitem l i = match nth_error l (Z.to_nat i) with
                | Some x => inr x
                | None => inl IndexError
                end.
Proof.
  intros Hi. unfold getitem.
  destruct (i <? 0) eqn:E; [apply Z.ltb_lt in E; lia|].
  cbn zeta. rewrite E. cbn [orb].
  destruct (Z.of_nat (List.length l) <=? i) eqn:E2; [|reflexivity].
  apply Z.leb_le in E2.
  assert (H : nth_error l (Z.to_nat i) = None) by (apply nth_error_None; lia).
  now rewrite H.
Qed.

Lemma setitem_nonneg {A : Type} (l : list A) (i : Z) (x : A) :
  0 <= i < Z.of_nat (List.length l) ->
  setitem l i x = inr (replace_nth (Z.to_nat i) l x).
Proof.
  intros Hi. unfold setitem.
  destruct (i <? 0) eqn:E; [apply Z.ltb_lt in E; lia|].
  cbn zeta. rewrite E. cbn [orb].
  destruct (Z.of_nat (List.length l) <=? i) eqn:E2; [|reflexivity].
  apply Z.leb_le in E2. lia.
Qed.

Lemma replace_nth_length {A : Type} (n : nat) (l : list A) (x : A) :
  List.length (replace_nth n l x) = List.length l.
Proof.
  revert n. induction l as [|h t IH]; intros [|n]; cbn; auto.
Qed.

Lemma nth_error_replace_nth_eq {A : Type} (n : nat) (l : list A) (x : A) :
  (n < List.length l)%nat -> nth_error (replace_nth n l x) n = Some x.
Proof.
  revert n. induction l as [|h t IH]; intros [|n] H; cbn in *; try lia; auto.
  apply IH. lia.
Qed.

Lemma nth_error_replace_nth_neq {A : Type} (n m : nat) (l : list A) (x : A) :
  n <> m -> nth_error (replace_nth n l x) m = nth_error l m.
Proof.
  revert n m. induction l as [|h t IH]; intros [|n] [|m] H; cbn; auto.
  congruence.
Qed.

Lemma Forall_replace_nth {A : Type} (P : A -> Prop) (n : nat) (l : list A) (x : A) :
  Forall P l -> P x -> Forall P (replace_nth n l x).
Proof.
  intros Hl Hx. revert n.
  induction Hl as [|h t Hh Ht IH]; intros [|n]; cbn; auto.
Qed.

(** A loop whose body never raises runs to its end, and an invariant of the
    body, indexed by the elements already visited, holds there. *)
Lemma for_each_invariant {S A : Type} (I : list A -> S -> Prop)
  (xs : list A) (body : A -> M S unit) :
  (forall done x rest s, xs = done ++ x :: rest -> I done s ->
     exists s', body x s = (inr tt, s') /\ I (done ++ [x]) s') ->
  forall s, I [] s ->
  exists s', for_each xs body s = (inr tt, s') /\ I xs s'.
Proof.
  intros Hbody.
  assert (G : forall rest done s, xs = done ++ rest -> I done s ->
            exists s', for_each rest body s = (inr tt, s') /\ I xs s').
  { induction rest as [|x rest IH]; intros done s Hxs HI.
    - rewrite app_nil_r in Hxs. subst done. exists s. now split.
    - destruct (Hbody done x rest s Hxs HI) as [s1 [E1 H1]].
      destruct (IH (done ++ [x]) s1) as [s2 [E2 H2]]; auto.
      { now rewrite <- app_assoc. }
      exists s2. split; [|exact H2].
      cbn. unfold bind. now rewrite E1. }
  intros s H0. now apply (G xs [] s).
Qed.

(** ** The solution grid as a function of its indices *)

Lemma item_at_nonneg (g : list (list Z)) (r c : Z) :
  0 <= r -> 0 <= c ->
  item_at g r c =
    match nth_error g (Z.to_nat r) with
    | Some row => match nth_error row (Z.to_nat c) with
                  | Some x => inr x
                  | None => inl IndexError
                  end
    | None => inl IndexError
    end.
Proof.
  intros Hr Hc. unfold item_at. rewrite (getitem_nonneg g r Hr).
  destruct (nth_error g (Z.to_nat r)) as [row|]; cbn; [|reflexivity].
  apply getitem_nonneg, Hc.
Qed.

Lemma represents_ext (R C : Z) (g : Grid) (f f' : Z -> Z -> Z) :
  represents R C g f ->
  (forall r c, 0 <= r < R -> 0 <= c < C -> f r c = f' r c) ->
  represents R C g f'.
Proof.
  intros (HR & HC & Hf) E. repeat split; auto.
  intros r c Hr Hc. rewrite <- E by assumption. now apply Hf.
Qed.

Lemma represents_initial (rs cs : list Z) :
  represents (Z.of_nat (List.length rs)) (Z.of_nat (List.length cs))
    (map (fun _ => map (fun _ => 0) cs) rs) (fun _ _ => 0).
Proof.
  repeat split.
  - now rewrite length_map.
  - apply Forall_forall. intros row Hrow. apply in_map_iff in Hrow.
    destruct Hrow as [x [<- _]]. now rewrite length_map.
  - intros r c Hr Hc. rewrite item_at_nonneg by lia.
    destruct (nth_error (map (fun _ : Z => map (fun _ : Z => 0) cs) rs) (Z.to_nat r))
      as [row|] eqn:E.
    + apply nth_error_In, in_map_iff in E. destruct E as [x [<- _]].
      destruct (nth_error (map (fun _ : Z => 0) cs) (Z.to_nat c)) as [y|] eqn:E2.
      * apply nth_error_In, in_map_iff in E2. destruct E2 as [z [<- _]].
        reflexivity.
      * apply nth_error_None in E2. rewrite length_map in E2. lia.
    + apply nth_error_None in E. rewrite length_map in E. lia.
Qed.

Lemma set_cell_represents (R C : Z) (g : Grid) (f : Z -> Z -> Z) (r c v : Z) :
  represents R C g f -> 0 <= r < R -> 0 <= c < C ->
  exists g', set_cell r c v g = (inr tt, g') /\
             represents R C g' (upd f r c v).
Proof.
  intros (HR & HC & Hf) Hr Hc. unfold set_cell.
  rewrite (getitem_nonneg g r) by lia.
  destruct (nth_error g (Z.to_nat r)) as [row|] eqn:Erow.
  2:{ apply nth_error_None in Erow. lia. }
  assert (Hlen : Z.of_nat (List.length row) = C).
  { rewrite Forall_forall in HC. apply HC. eapply nth_error_In, Erow. }
  rewrite setitem_nonneg by lia. rewrite setitem_nonneg by lia.
  eexists. split; [reflexivity|].
  repeat split.
  - now rewrite replace_nth_length.
  - apply Forall_replace_nth; [exact HC|]. now rewrite replace_nth_length.
  - intros r' c' Hr' Hc'. rewrite item_at_nonneg by lia.
    specialize (Hf r' c' Hr' Hc'). rewrite item_at_nonneg in Hf by lia.
    unfold upd.
    destruct (r' =? r) eqn:Er.
    + apply Z.eqb_eq in Er. subst r'.
      rewrite nth_error_replace_nth_eq by lia.
      rewrite Erow in Hf.
      destruct (c' =? c) eqn:Ec; cbn [andb].
      * apply Z.eqb_eq in Ec. subst c'.
        now rewrite nth_error_replace_nth_eq by lia.
      * apply Z.eqb_neq in Ec.
        rewrite nth_error_replace_nth_neq by lia. exact Hf.
    + apply Z.eqb_neq in Er. cbn [andb].
      rewrite nth_error_replace_nth_neq by lia. exact Hf.
Qed.

(** ** The decoder, cell by cell *)

Section Decoder.

Variable value_of : Assignment.
Variable gv : GridVars.
Variable var : Z -> Z -> Z -> LpVariable.
Variables rs cs vs : list Z.

Hypothesis var_ok : forall r c v,
  In r rs -> In c cs -> In v vs -> var_at gv r c v = inr (var r c v).
Hypothesis rs_ok : forall r, In r rs -> 0 <= r < Z.of_nat (List.length rs).
Hypothesis cs_ok : forall c, In c cs -> 0 <= c < Z.of_nat (List.length cs).
Hypothesis rs_nodup : NoDup rs.
Hypothesis cs_nodup : NoDup cs.

Lemma scan_cell (g : Grid) (f : Z -> Z -> Z) (r c : Z) :
  In r rs -> In c cs -> represents
    (Z.of_nat (List.length rs)) (Z.of_nat (List.length cs)) g f ->
  exists g',
    for_each vs (fun value =>
      x <- lift (var_at gv r c value) ;;
      if truthy (value_of x) then set_cell r c value else ret tt) g
    = (inr tt, g') /\
    represents
    (Z.of_nat (List.length rs)) (Z.of_nat (List.length cs)) g' (upd f r c (scan value_of var vs r c (f r c))).
Proof.
  intros Hr Hc Hg.
  pose (I := fun (done : list Z) (g' : Grid) =>
               represents
    (Z.of_nat (List.length rs)) (Z.of_nat (List.length cs)) g' (upd f r c (fold_left (scan_step value_of var r c) done (f r c)))).
  destruct (for_each_invariant I vs
              (fun value =>
                 x <- lift (var_at gv r c value) ;;
                 if truthy (value_of x) then set_cell r c value else ret tt))
    with (s := g) as [g' [E H]].
  - intros done x rest s Hsplit HI. unfold I in *.
    assert (Hx : In x vs) by (rewrite Hsplit; apply in_or_app; right; now left).
    unfold bind, lift. rewrite (var_ok r c x Hr Hc Hx).
    rewrite fold_left_app. cbn [fold_left]. unfold scan_step at 1.
    destruct (truthy (value_of (var r c x))).
    + destruct (set_cell_represents
    (Z.of_nat (List.length rs)) (Z.of_nat (List.length cs)) s _ r c x HI) as [s' [E' H']];
        [now apply rs_ok | now apply cs_ok |].
      exists s'. split; [exact E'|].
      eapply represents_ext; [exact H'|].
      intros r' c' _ _. unfold upd.
      now destruct ((r' =? r) && (c' =? c)).
    + exists s. split; [reflexivity | exact HI].
  - unfold I. cbn. eapply represents_ext; [exact Hg|].
    intros r' c' _ _. unfold upd.
    destruct ((r' =? r) && (c' =? c)) eqn:E; [|reflexivity].
    apply andb_true_iff in E. destruct E as [E1 E2].
    apply Z.eqb_eq in E1, E2. now subst.
  - exists g'. split; [exact E | exact H].
Qed.

Lemma scan_row (g : Grid) (f : Z -> Z -> Z) (r : Z) :
  In r rs -> represents
    (Z.of_nat (List.length rs)) (Z.of_nat (List.length cs)) g f ->
  exists g',
    for_each cs (fun col =>
      for_each vs (fun value =>
        x <- lift (var_at gv r col value) ;;
        if truthy (value_of x) then set_cell r col value else ret tt)) g
    = (inr tt, g') /\
    represents
    (Z.of_nat (List.length rs)) (Z.of_nat (List.length cs)) g' (row_done value_of var vs f r cs).
Proof.
  intros Hr Hg.
  pose (I := fun (done : list Z) (g' : Grid) =>
               represents
    (Z.of_nat (List.length rs)) (Z.of_nat (List.length cs)) g' (row_done value_of var vs f r done)).
  destruct (for_each_invariant I cs
              (fun col =>
                 for_each vs (fun value =>
                   x <- lift (var_at gv r col value) ;;
                   if truthy (value_of x) then set_cell r col value else ret tt)))
    with (s := g) as [g' [E H]].
  - intros done x rest s Hsplit HI. unfold I in *.
    assert (Hx : In x cs) by (rewrite Hsplit; apply in_or_app; right; now left).
    assert (Hnew : existsb (Z.eqb x) done = false).
    { apply not_true_is_false. intros Hex. apply existsb_exists in Hex.
      destruct Hex as [y [Hy Exy]]. apply Z.eqb_eq in Exy. subst y.
      rewrite Hsplit in cs_nodup. apply NoDup_remove_2 in cs_nodup.
      apply cs_nodup. apply in_or_app. now left. }
    destruct (scan_cell s _ r x Hr Hx HI) as [s' [E' H']].
    exists s'. split; [exact E'|].
    eapply represents_ext; [exact H'|].
    intros r' c' _ _. unfold upd, row_done.
    rewrite existsb_app. cbn [existsb]. rewrite orb_false_r.
    rewrite Z.eqb_refl. cbn [andb]. rewrite Hnew.
    destruct (r' =? r) eqn:Er; cbn [andb]; [|reflexivity].
    apply Z.eqb_eq in Er. subst r'.
    destruct (c' =? x) eqn:Ec.
    + apply Z.eqb_eq in Ec. subst c'. rewrite Hnew. cbn [orb].
      reflexivity.
    + rewrite orb_false_r. reflexivity.
  - unfold I. eapply represents_ext; [exact Hg|].
    intros r' c' _ _. unfold row_done. cbn [existsb].
    now rewrite andb_false_r.
  - exists g'. split; [exact E | exact H].
Qed.

Lemma scan_rows (g : Grid) (f : Z -> Z -> Z) :
  represents
    (Z.of_nat (List.length rs)) (Z.of_nat (List.length cs)) g f ->
  exists g',
    for_each rs (fun row =>
      for_each cs (fun col =>
        for_each vs (fun value =>
          x <- lift (var_at gv row col value) ;;
          if truthy (value_of x) then set_cell row col value else ret tt))) g
    = (inr tt, g') /\
    represents
    (Z.of_nat (List.length rs)) (Z.of_nat (List.length cs)) g' (rows_done value_of var cs vs f rs).
Proof.
  intros Hg.
  pose (I := fun (done : list Z) (g' : Grid) =>
               represents
    (Z.of_nat (List.length rs)) (Z.of_nat (List.length cs)) g' (rows_done value_of var cs vs f done)).
  destruct (for_each_invariant I rs
              (fun row =>
                 for_each cs (fun col =>
                   for_each vs (fun value =>
                     x <- lift (var_at gv row col value) ;;
                     if truthy (value_of x) then set_cell row col value
                     else ret tt))))
    with (s := g) as [g' [E H]].
  - intros done x rest s Hsplit HI. unfold I in *.
    assert (Hx : In x rs) by (rewrite Hsplit; apply in_or_app; right; now left).
    assert (Hnew : existsb (Z.eqb x) done = false).
    { apply not_true_is_false. intros Hex. apply existsb_exists in Hex.
      destruct Hex as [y [Hy Exy]]. apply Z.eqb_eq in Exy. subst y.
      rewrite Hsplit in rs_nodup. apply NoDup_remove_2 in rs_nodup.
      apply rs_nodup. apply in_or_app. now left. }
    destruct (scan_row s _ x Hx HI) as [s' [E' H']].
    exists s'. split; [exact E'|].
    eapply represents_ext; [exact H'|].
    intros r' c' _ _. unfold row_done, rows_done.
    rewrite existsb_app. cbn [existsb]. rewrite orb_false_r.
    destruct (r' =? x) eqn:Er; cbn [andb].
    + apply Z.eqb_eq in Er. subst r'. rewrite Hnew. cbn [andb orb].
      destruct (existsb (Z.eqb c') cs); reflexivity.
    + rewrite orb_false_r.
      destruct (existsb (Z.eqb r') done && existsb (Z.eqb c') cs); reflexivity.
  - unfold I. eapply represents_ext; [exact Hg|].
    intros r' c' _ _. unfold rows_done. reflexivity.
  - exists g'. split; [exact E | exact H].
Qed.

(** The decoder never raises, and every cell of its grid holds the scan of
    the cell started from 0. *)
Lemma extract_solution_scan :
  exists solution,
    extract_solution value_of gv rs cs vs = inr solution /\
    Z.of_nat (List.length solution) = Z.of_nat (List.length rs) /\
    Forall (fun row => Z.of_nat (List.length row) = Z.of_nat (List.length cs)) solution /\
    forall r c, In r rs -> In c cs ->
      item_at solution r c = inr (scan value_of var vs r c 0).
Proof.
  destruct (scan_rows _ _ (represents_initial rs cs)) as [g' [E (HR & HC & Hf)]].
  exists g'. unfold extract_solution. rewrite E.
  repeat split; auto.
  intros r c Hr Hc. rewrite Hf by auto. unfold rows_done.
  assert (H1 : existsb (Z.eqb r) rs = true).
  { apply existsb_exists. exists r. split; [exact Hr | apply Z.eqb_refl]. }
  assert (H2 : existsb (Z.eqb c) cs = true).
  { apply existsb_exists. exists c. split; [exact Hc | apply Z.eqb_refl]. }
  now rewrite H1, H2.
Qed.

End Decoder.

Lemma NoDup_range (lo hi : Z) : NoDup (range lo hi).
Proof.
  unfold range. apply Finite.Injective_map_NoDup; [|apply seq_NoDup].
  intros x y. lia.
Qed.

(** What a scan that meets a single true value, or none, leaves behind. *)
Lemma fold_scan_none (value_of : Assignment) (var : Z -> Z -> Z -> LpVariable)
  (r c : Z) (l : list Z) (d : Z) :
  (forall v, In v l -> value_of (var r c v) = 0) ->
  fold_left (scan_step value_of var r c) l d = d.
Proof.
  revert d. induction l as [|v l IH]; intros d H; cbn; [reflexivity|].
  unfold scan_step at 2. rewrite (H v) by now left. cbn.
  apply IH. intros v' Hv'. apply H. now right.
Qed.

Lemma scan_last_true (value_of : Assignment) (var : Z -> Z -> Z -> LpVariable)
  (vs : list Z) (r c d : Z) (l1 l2 : list Z) (v : Z) :
  vs = l1 ++ v :: l2 ->
  value_of (var r c v) <> 0 ->
  (forall v', In v' l2 -> value_of (var r c v') = 0) ->
  scan value_of var vs r c d = v.
Proof.
  intros -> Hv Hl2. unfold scan. rewrite fold_left_app. cbn [fold_left].
  unfold scan_step at 2. unfold truthy.
  destruct (value_of (var r c v) =? 0) eqn:E; [apply Z.eqb_eq in E; contradiction|].
  cbn [negb]. now apply fold_scan_none.
Qed.

Lemma dict_get_map {V : Type} (f : Z -> V) (ks : list Z) (k : Z) :
  In k ks -> dict_get (map (fun k' => (k', f k')) ks) k = inr (f k).
Proof.
  induction ks as [|k0 ks IH]; intros H; [contradiction|].
  cbn. destruct (k =? k0) eqn:E.
  - apply Z.eqb_eq in E. now subst.
  - apply IH. destruct H as [H|H]; [|exact H].
    apply Z.eqb_neq in E. congruence.
Qed.

Lemma var_at_dicts (name : string) (rs cs vs : list Z) (cat : LpCategory)
  (r c v : Z) :
  In r rs -> In c cs -> In v vs ->
  var_at (LpVariable_dicts name rs cs vs cat) r c v
  = inr (mkVar (name +++ "_" +++ str r +++ "_" +++ str c
                     +++ "_" +++ str v)%string cat).
Proof.
  intros Hr Hc Hv. unfold var_at, LpVariable_dicts.
  rewrite (dict_get_map _ rs r Hr). cbn [rbind].
  rewrite (dict_get_map _ cs c Hc). cbn [rbind].
  now rewrite (dict_get_map _ vs v Hv).
Qed.

Lemma var_at_grid_vars (r c v : Z) :
  In r rows -> In c cols -> In v values ->
  var_at grid_vars r c v = inr (the_var r c v).
Proof. apply var_at_dicts. Qed.

Lemma extract_solution_decode (value_of : Assignment) :
  exists solution,
    extract_solution value_of grid_vars rows cols values = inr solution /\
    List.length solution = 9%nat /\
    Forall (fun row => List.length row = 9%nat) solution /\
    forall r c, In r rows -> In c cols ->
      item_at solution r c = inr (decode value_of r c).
Proof.
  destruct (extract_solution_scan value_of grid_vars the_var rows cols values)
    as [sol (E & HR & HC & Hf)].
  - intros r c v. apply var_at_grid_vars.
  - intros r Hr. apply in_range in Hr.
    change (Z.of_nat (List.length rows)) with 9. lia.
  - intros c Hc. apply in_range in Hc.
    change (Z.of_nat (List.length cols)) with 9. lia.
  - apply NoDup_range.
  - apply NoDup_range.
  - change (Z.of_nat (List.length rows)) with 9 in HR.
    change (Z.of_nat (List.length cols)) with 9 in HC.
    exists sol. split; [exact E|]. split; [lia|]. split; [|exact Hf].
    eapply Forall_impl; [|exact HC]. cbn. intros; lia.
Qed.

Lemma eval_weighted (a : Assignment) (k : Z) (xs : list LpVariable) :
  eval a (map (fun x => (x, k)) xs) = k * total a xs.
Proof.
  unfold eval, total.
  induction xs as [|x xs IH]; cbn [map fold_right fst snd]; [lia|].
  rewrite IH. lia.
Qed.

Lemma total_count (a : Assignment) (xs : list LpVariable) :
  binary a -> total a xs = Z.of_nat (count_ones a xs).
Proof.
  intros Ha. unfold count_ones, total.
  induction xs as [|x xs IH]; cbn [fold_right filter]; [reflexivity|].
  rewrite IH.
  destruct (Ha x) as [E|E]; rewrite E;
    [change (0 =? 1) with false | change (1 =? 1) with true];
    cbn [List.length]; lia.
Qed.

Lemma total_zero (a : Assignment) (xs : list LpVariable) :
  binary a -> total a xs = 0 -> forall x, In x xs -> a x = 0.
Proof.
  intros Ha. induction xs as [|x xs IH]; intros H y Hy; [contradiction|].
  pose proof (total_count a xs Ha) as Hc.
  change (total a (x :: xs)) with (a x + total a xs) in H.
  destruct (Ha x) as [E|E]; rewrite E in H; [|lia].
  destruct Hy as [<-|Hy]; [exact E|]. apply IH; [lia | exact Hy].
Qed.

(** A sum of binary variables equal to 1 has exactly one of them at 1. *)
Lemma total_one_split {K : Type} (a : Assignment) (g : K -> LpVariable)
  (ks : list K) :
  binary a -> total a (map g ks) = 1 ->
  exists l1 k l2, ks = l1 ++ k :: l2 /\ a (g k) = 1 /\
    (forall k', In k' l1 -> a (g k') = 0) /\
    (forall k', In k' l2 -> a (g k') = 0).
Proof.
  intros Ha. induction ks as [|k ks IH]; intros H; [cbn in H; lia|].
  change (total a (map g (k :: ks))) with (a (g k) + total a (map g ks)) in H.
  pose proof (total_count a (map g ks) Ha) as Hc.
  destruct (Ha (g k)) as [E|E]; rewrite E in H.
  - destruct IH as (l1 & k0 & l2 & -> & H0 & H1 & H2); [lia|].
    exists (k :: l1), k0, l2. repeat split; auto.
    intros k' [<-|Hk']; auto.
  - exists [], k, ks. repeat split; auto; [intros k' []|].
    intros k' Hk'. apply (total_zero a (map g ks) Ha); [lia|].
    now apply in_map.
Qed.

(** ** Loops over products and comprehensions that do not raise *)

Lemma for_each_app {S A : Type} (xs ys : list A) (body : A -> M S unit) (s : S) :
  for_each (xs ++ ys) body s = (for_each xs body ;; for_each ys body) s.
Proof.
  revert s. induction xs as [|x xs IH]; intros s; [reflexivity|].
  cbn [app for_each]. unfold bind in *.
  destruct (body x s) as [[e|u] s']; [reflexivity | apply IH].
Qed.

Lemma for_each_map {S A B : Type} (f : A -> B) (xs : list A)
  (body : B -> M S unit) (s : S) :
  for_each (map f xs) body s = for_each xs (fun x => body (f x)) s.
Proof.
  revert s. induction xs as [|x xs IH]; intros s; [reflexivity|].
  cbn [map for_each]. unfold bind.
  destruct (body (f x) s) as [[e|u] s']; [reflexivity | apply IH].
Qed.

(** Two nested loops visit the pairs of the product in order. *)
Lemma for_each_prod {S A B : Type} (xs : list A) (ys : list B)
  (body : A -> B -> M S unit) (s : S) :
  for_each xs (fun x => for_each ys (body x)) s
  = for_each (list_prod xs ys) (fun p => body (fst p) (snd p)) s.
Proof.
  revert s. induction xs as [|x xs IH]; intros s; [reflexivity|].
  cbn [list_prod for_each]. rewrite for_each_app. unfold bind.
  rewrite for_each_map. cbn [fst snd].
  change (fun x0 : B => body x x0) with (body x).
  destruct (for_each ys (body x) s) as [[e|u] s']; [reflexivity | apply IH].
Qed.

Lemma comprehension_total {A B : Type} (f : A -> result B) (g : A -> B)
  (xs : list A) :
  (forall x, In x xs -> f x = inr (g x)) ->
  comprehension f xs = inr (map g xs).
Proof.
  induction xs as [|x xs IH]; intros H; [reflexivity|].
  cbn [comprehension map]. rewrite (H x) by now left. cbn [rbind].
  rewrite IH; [reflexivity|]. intros y Hy. apply H. now right.
Qed.

Lemma lpSum_singletons {A : Type} (h : A -> LpVariable * Z) (xs : list A) :
  lpSum (map (fun x => [h x]) xs) = map h xs.
Proof.
  unfold lpSum. induction xs as [|x xs IH]; [reflexivity|].
  cbn [map List.concat app]. now rewrite IH.
Qed.

(** ** Adding constraints under fresh names *)

Lemma extend_nil (p : LpProblem) : extend p [] = p.
Proof. destruct p. unfold extend. cbn. now rewrite app_nil_r. Qed.

Lemma extend_extend (p : LpProblem) (l1 l2 : list LpConstraint) :
  extend (extend p l1) l2 = extend p (l1 ++ l2).
Proof. unfold extend. cbn. now rewrite app_assoc. Qed.

Lemma has_name_false (n : string) (cs : list LpConstraint) :
  ~ In n (names cs) -> has_name n cs = false.
Proof.
  intros H. apply not_true_is_false. intros E. apply H.
  unfold has_name in E. apply existsb_exists in E.
  destruct E as [c [Hc Ec]]. apply String.eqb_eq in Ec. subst n.
  now apply in_map.
Qed.

Lemma NoDup_disjoint {A : Type} (l1 l2 : list A) :
  NoDup (l1 ++ l2) -> forall x, In x l1 -> ~ In x l2.
Proof.
  induction l1 as [|a l1 IH]; intros H x Hx; [contradiction|].
  cbn in H. inversion H as [|? ? Ha Hrest]; subst.
  destruct Hx as [<-|Hx].
  - intros H2. apply Ha. apply in_or_app. now right.
  - now apply IH.
Qed.

Lemma adds_ext (m m' : M LpProblem unit) nm r l :
  (forall p, m p = m' p) -> adds m' nm r l -> adds m nm r l.
Proof.
  intros E [Hi H]. split; [exact Hi|]. intros p Hp. rewrite E. now apply H.
Qed.

Lemma adds_ret : adds (ret tt) [] (inr tt) [].
Proof.
  split; [intros x []|]. intros p _. unfold ret. now rewrite extend_nil.
Qed.

Lemma adds_addConstraint (c : LpConstraint) :
  adds (addConstraint c) [cname c] (inr tt) [c].
Proof.
  split.
  - intros n [<-|[]]. now left.
  - intros p Hp. unfold addConstraint.
    rewrite has_name_false; [reflexivity|]. apply Hp. now left.
Qed.

Lemma adds_seq (m1 m2 : M LpProblem unit) nm1 nm2 r l1 l2 :
  adds m1 nm1 (inr tt) l1 -> adds m2 nm2 r l2 ->
  (forall n, In n nm1 -> ~ In n nm2) ->
  adds (m1 ;; m2) (nm1 ++ nm2) r (l1 ++ l2).
Proof.
  intros [Hi1 H1] [Hi2 H2] Hd. split.
  - unfold names. rewrite map_app. apply incl_app_app; assumption.
  - intros p Hp. unfold bind. rewrite H1.
    + rewrite H2; [now rewrite extend_extend|].
      intros n Hn Hin. unfold extend, names in Hin. cbn in Hin.
      rewrite map_app in Hin. apply in_app_or in Hin.
      destruct Hin as [Hin|Hin].
      * apply (Hp n); [apply in_or_app; now right | exact Hin].
      * apply (Hd n); [apply Hi1, Hin | exact Hn].
    + intros n Hn. apply Hp. apply in_or_app. now left.
Qed.

Lemma adds_raise (m1 m2 : M LpProblem unit) nm1 nm2 e l1 :
  adds m1 nm1 (inl e) l1 -> adds (m1 ;; m2) (nm1 ++ nm2) (inl e) l1.
Proof.
  intros [Hi1 H1]. split.
  - apply incl_appl, Hi1.
  - intros p Hp. unfold bind. rewrite H1; [reflexivity|].
    intros n Hn. apply Hp. apply in_or_app. now left.
Qed.

Lemma adds_for_each_trace {A : Type} (xs : list A) (body : A -> M LpProblem unit)
  (nm : A -> string) (t : A -> result unit * list LpConstraint) :
  (forall x, In x xs -> adds (body x) [nm x] (fst (t x)) (snd (t x))) ->
  NoDup (map nm xs) ->
  adds (for_each xs body) (map nm xs)
    (fst (run_trace t xs)) (snd (run_trace t xs)).
Proof.
  induction xs as [|x xs IH]; intros Hbody Hnd.
  - apply adds_ret.
  - cbn [for_each map run_trace].
    pose proof (Hbody x (or_introl eq_refl)) as Hx.
    inversion Hnd as [|? ? Hfresh Hrest]; subst.
    destruct (fst (t x)) as [e|[]] eqn:E.
    + cbn [fst snd]. apply (adds_raise _ _ [nm x] (map nm xs)). exact Hx.
    + cbn [fst snd]. apply (adds_seq _ _ [nm x] (map nm xs)).
      * exact Hx.
      * apply IH; [|exact Hrest]. intros y Hy. apply Hbody. now right.
      * intros n [<-|[]]. exact Hfresh.
Qed.

(** A loop each of whose turns adds one constraint. *)
Lemma adds_for_each {A : Type} (xs : list A) (body : A -> M LpProblem unit)
  (f : A -> LpConstraint) :
  (forall x, In x xs -> forall p, body x p = addConstraint (f x) p) ->
  NoDup (names (map f xs)) ->
  adds (for_each xs body) (names (map f xs)) (inr tt) (map f xs).
Proof.
  intros Hbody Hnd. unfold names in *. rewrite map_map in *.
  pose proof (adds_for_each_trace xs body (fun x => cname (f x))
                (fun x => (inr tt, [f x]))) as H.
  assert (E : run_trace (fun x => (inr tt, [f x])) xs = (inr tt, map f xs)).
  { clear. induction xs as [|x xs IH]; [reflexivity|].
    cbn [run_trace fst snd map]. rewrite IH. reflexivity. }
  rewrite E in H. apply H; [|exact Hnd].
  intros x Hx. cbn [fst snd]. eapply adds_ext; [apply Hbody, Hx|].
  apply adds_addConstraint.
Qed.

Lemma nodupb_sound (l : list string) : nodupb l = true -> NoDup l.
Proof.
  induction l as [|x t IH]; intros H; [constructor|].
  cbn in H. apply andb_true_iff in H. destruct H as [H1 H2].
  constructor; [|now apply IH].
  intros Hin. apply negb_true_iff in H1.
  assert (E : existsb (String.eqb x) t = true).
  { apply existsb_exists. exists x. split; [exact Hin | apply String.eqb_refl]. }
  congruence.
Qed.

(** ** The constraint families, loop by loop *)

Lemma sum_body (row col : Z) (p : LpProblem) :
  In row rows -> In col cols ->
  (xs <- lift (comprehension (fun value => var_at grid_vars row col value) values) ;;
   addConstraint
     (mkConstraint (lpSum (map var_expr xs)) LpConstraintEQ 1
        ("constraint_sum_" +++ str row +++ "_" +++ str col)%string)) p
  = addConstraint (sum_constraint (row, col)) p.
Proof.
  intros Hr Hc. unfold bind, lift.
  rewrite (comprehension_total _ (the_var row col)).
  - rewrite map_map. unfold var_expr. now rewrite lpSum_singletons.
  - intros v Hv. now apply var_at_grid_vars.
Qed.

Lemma uniq_body {K : Type} (f : K -> result LpAffineExpression)
  (keys : list K) (cell : K -> Z * Z) (value : Z) (name : string)
  (p : LpProblem) :
  (forall k, In k keys ->
     f k = inr (var_times (the_var (fst (cell k)) (snd (cell k)) value) value)) ->
  (es <- lift (comprehension f keys) ;;
   addConstraint (mkConstraint (lpSum es) LpConstraintEQ value name)) p
  = addConstraint (uniq_constraint (map cell keys) value name) p.
Proof.
  intros Hf. unfold bind, lift.
  rewrite (comprehension_total f _ keys Hf).
  unfold var_times. rewrite lpSum_singletons.
  unfold uniq_constraint. now rewrite map_map.
Qed.

Ltac names_distinct := apply nodupb_sound; vm_compute; reflexivity.

Lemma adds_sum_family :
  adds (for_each rows (fun row =>
          for_each cols (fun col =>
            xs <- lift (comprehension
                          (fun value => var_at grid_vars row col value) values) ;;
            addConstraint
              (mkConstraint (lpSum (map var_expr xs)) LpConstraintEQ 1
                 ("constraint_sum_" +++ str row +++ "_" +++ str col)%string))))
       (names sum_family) (inr tt) sum_family.
Proof.
  eapply adds_ext; [intros p; apply for_each_prod|].
  apply adds_for_each; [|names_distinct].
  intros [r c] Hin p. apply in_prod_iff in Hin. destruct Hin as [Hr Hc].
  now apply sum_body.
Qed.

Lemma adds_row_family :
  adds (for_each rows (fun row =>
          for_each values (fun value =>
            es <- lift (comprehension
                          (fun col => rbind (var_at grid_vars row col value)
                                        (fun x => inr (var_times x value)))
                          cols) ;;
            addConstraint
              (mkConstraint (lpSum es) LpConstraintEQ value
                 ("constraint_uniq_row_" +++ str row +++ "_" +++ str value)%string))))
       (names row_family) (inr tt) row_family.
Proof.
  eapply adds_ext; [intros p; apply for_each_prod|].
  apply adds_for_each; [|names_distinct].
  intros [r v] Hin p. apply in_prod_iff in Hin. destruct Hin as [Hr Hv].
  cbn [fst snd]. apply (uniq_body _ cols (fun col => (r, col))).
  intros c Hc. cbn [fst snd]. now rewrite var_at_grid_vars.
Qed.

Lemma adds_col_family :
  adds (for_each cols (fun col =>
          for_each values (fun value =>
            es <- lift (comprehension
                          (fun row => rbind (var_at grid_vars row col value)
                                        (fun x => inr (var_times x value)))
                          rows) ;;
            addConstraint
              (mkConstraint (lpSum es) LpConstraintEQ value
                 ("constraint_uniq_col_" +++ str col +++ "_" +++ str value)%string))))
       (names col_family) (inr tt) col_family.
Proof.
  eapply adds_ext; [intros p; apply for_each_prod|].
  apply adds_for_each; [|names_distinct].
  intros [c v] Hin p. apply in_prod_iff in Hin. destruct Hin as [Hc Hv].
  cbn [fst snd]. apply (uniq_body _ rows (fun row => (row, c))).
  intros r Hr. cbn [fst snd]. now rewrite var_at_grid_vars.
Qed.

(** The cells of a box lie on the board. *)
Lemma box_cells_on_board (grid : Z) (rc : Z * Z) :
  In grid grids -> In rc (box_cells grid) -> In (fst rc) rows /\ In (snd rc) cols.
Proof.
  intros Hg Hrc. unfold box_cells in Hrc. apply in_map_iff in Hrc.
  destruct Hrc as [[c r] [<- Hin]]. apply in_prod_iff in Hin.
  destruct Hin as [Hc Hr]. cbn [fst snd].
  apply in_range in Hg, Hc, Hr.
  rewrite Z.quot_div_nonneg by lia.
  split; apply in_range.
  - pose proof (Z.div_lt_upper_bound grid 3 3). pose proof (Z.div_pos grid 3). lia.
  - pose proof (Z.mod_pos_bound grid 3). lia.
Qed.

Lemma adds_grid_family :
  adds (for_each grids (fun grid =>
          let grid_row := Z.quot grid 3 in
          let grid_col := Z.modulo grid 3 in
          for_each values (fun value =>
            es <- lift (comprehension
                          (fun '(col, row) =>
                             rbind (var_at grid_vars (grid_row * 3 + row)
                                      (grid_col * 3 + col) value)
                               (fun x => inr (var_times x value)))
                          (list_prod (range 0 3) (range 0 3))) ;;
            addConstraint
              (mkConstraint (lpSum es) LpConstraintEQ value
                 ("constraint_uniq_grid_" +++ str grid +++ "_" +++ str value)%string))))
       (names grid_family) (inr tt) grid_family.
Proof.
  cbv zeta.
  eapply adds_ext; [intros p; apply for_each_prod|].
  apply adds_for_each; [|names_distinct].
  intros [g v] Hin p. apply in_prod_iff in Hin. destruct Hin as [Hg Hv].
  cbn [fst snd].
  apply (uniq_body _ (list_prod (range 0 3) (range 0 3))
           (fun cr => (Z.quot g 3 * 3 + snd cr, g mod 3 * 3 + fst cr))).
  intros [c r] Hcr. cbn [fst snd].
  destruct (box_cells_on_board g (Z.quot g 3 * 3 + r, g mod 3 * 3 + c) Hg) as [H1 H2].
  { unfold box_cells. apply in_map_iff. exists (c, r). now split. }
  cbn [fst snd] in H1, H2. now rewrite var_at_grid_vars.
Qed.

Theorem adds_default :
  adds (add_default_sudoku_constraints grid_vars rows cols grids values)
       (names default_family) (inr tt) default_family.
Proof.
  assert (Hnd : NoDup (names default_family)) by names_distinct.
  unfold default_family, names in *. rewrite !map_app in *.
  unfold add_default_sudoku_constraints.
  apply adds_seq; [apply adds_sum_family| |now apply NoDup_disjoint].
  apply NoDup_app_remove_l in Hnd.
  apply adds_seq; [apply adds_row_family| |now apply NoDup_disjoint].
  apply NoDup_app_remove_l in Hnd.
  apply adds_seq; [apply adds_col_family| apply adds_grid_family |now apply NoDup_disjoint].
Qed.

Lemma adds_weaken (m : M LpProblem unit) nm nm' r l :
  adds m nm r l -> incl nm nm' -> adds m nm' r l.
Proof.
  intros [Hi H] Hincl. split.
  - intros n Hn. apply Hincl, Hi, Hn.
  - intros p Hp. apply H. intros n Hn. apply Hp, Hincl, Hn.
Qed.

Theorem adds_diagonal :
  adds (add_diagonal_sudoku_constraints grid_vars rows cols values)
       (names diagonal_family) (inr tt) diagonal_family.
Proof.
  assert (Hnd : NoDup (names diagonal_family)) by names_distinct.
  unfold diagonal_family, names in *. rewrite map_app in *.
  unfold add_diagonal_sudoku_constraints.
  apply adds_seq; [| |now apply NoDup_disjoint].
  - apply adds_for_each; [|now apply NoDup_app_remove_r in Hnd].
    intros v Hv p. apply (uniq_body _ rows (fun row => (row, row))).
    intros r Hr. cbn [fst snd]. now rewrite var_at_grid_vars.
  - apply adds_for_each; [|now apply NoDup_app_remove_l in Hnd].
    intros v Hv p.
    apply (uniq_body _ rows
             (fun row => (row, Z.of_nat (List.length rows) - row - 1))).
    intros r Hr. cbn [fst snd]. rewrite var_at_grid_vars; auto.
    apply in_range in Hr. apply in_range.
    change (Z.of_nat (List.length rows)) with 9. lia.
Qed.

Lemma prefilled_body (input_sudoku : Board) (rc : Z * Z) :
  In rc (list_prod rows cols) ->
  adds (p <- lift (item_at input_sudoku (fst rc) (snd rc)) ;;
        if negb (p =? 0) then
          es <- lift (comprehension
                        (fun value =>
                           rbind (var_at grid_vars (fst rc) (snd rc) value)
                             (fun x => inr (var_times x value)))
                        values) ;;
          p' <- lift (item_at input_sudoku (fst rc) (snd rc)) ;;
          addConstraint
            (mkConstraint (lpSum es) LpConstraintEQ p'
               ("constraint_prefilled_" +++ str (fst rc) +++ "_"
                  +++ str (snd rc))%string)
        else ret tt)
       [prefilled_name rc]
       (fst (prefilled_turn input_sudoku rc))
       (snd (prefilled_turn input_sudoku rc)).
Proof.
  intros Hin. destruct rc as [r c]. apply in_prod_iff in Hin.
  destruct Hin as [Hr Hc]. unfold prefilled_turn. cbn [fst snd].
  destruct (item_at input_sudoku r c) as [e|p] eqn:E.
  - split; [intros n []|]. intros q _. unfold bind, lift.
    cbn [fst snd]. now rewrite extend_nil.
  - destruct (p =? 0) eqn:Ep; cbn [fst snd negb].
    + split; [intros n []|]. intros q _. unfold bind, lift, ret.
      cbn [fst snd]. rewrite Ep. cbn [negb]. now rewrite extend_nil.
    + eapply adds_ext; [|apply (adds_addConstraint (prefilled_constraint (r, c) p))].
      intros q. unfold bind, lift. rewrite Ep. cbn [negb].
      rewrite (comprehension_total _
                 (fun value => var_times (the_var r c value) value)).
      * unfold var_times. rewrite lpSum_singletons. reflexivity.
      * intros v Hv. now rewrite var_at_grid_vars.
Qed.

Theorem adds_prefilled (input_sudoku : Board) :
  adds (add_prefilled_constraints input_sudoku grid_vars rows cols values)
       (map prefilled_name (list_prod rows cols))
       (prefilled_outcome input_sudoku) (prefilled_family input_sudoku).
Proof.
  unfold add_prefilled_constraints, prefilled_outcome, prefilled_family.
  eapply adds_ext; [intros p; apply for_each_prod|].
  apply (adds_for_each_trace (list_prod rows cols) _ prefilled_name
           (prefilled_turn input_sudoku)); [|names_distinct].
  intros rc Hrc. exact (prefilled_body input_sudoku rc Hrc).
Qed.

(** ** The model that [solve_sudoku] builds *)

Lemma model_names_distinct : NoDup model_names.
Proof. names_distinct. Qed.

(** Building on any problem that holds none of the names of the model: the
    objective becomes the empty sum and the constraints of the model come
    after those the problem held. *)
Theorem build_model_on (input_sudoku : Board) (diagonal : bool) (p : LpProblem) :
  fresh model_names p ->
  build_model input_sudoku diagonal p
  = (prefilled_outcome input_sudoku,
     mkProblem (pname p) []
       (constraints p ++ model_constraints input_sudoku diagonal)).
Proof.
  intros Hp. unfold build_model.
  assert (H : adds
    (add_default_sudoku_constraints grid_vars rows cols grids values ;;
     (if diagonal
      then add_diagonal_sudoku_constraints grid_vars rows cols values
      else ret tt) ;;
     add_prefilled_constraints input_sudoku grid_vars rows cols values)
    model_names (prefilled_outcome input_sudoku)
    (model_constraints input_sudoku diagonal)).
  { pose proof model_names_distinct as Hnd. unfold model_names in *.
    apply adds_seq; [apply adds_default| |now apply NoDup_disjoint].
    apply NoDup_app_remove_l in Hnd.
    apply adds_seq; [| apply adds_prefilled |now apply NoDup_disjoint].
    destruct diagonal; [apply adds_diagonal|].
    eapply adds_weaken; [apply adds_ret | intros n []]. }
  destruct H as [_ H].
  specialize (H (mkProblem (pname p) [] (constraints p)) Hp).
  unfold bind at 1. unfold setObjective. cbn [lpSum List.concat].
  exact H.
Qed.

Theorem build_model_fresh (input_sudoku : Board) (diagonal : bool) :
  build_model input_sudoku diagonal (new_LpProblem "Sudoku_Solver")
  = (prefilled_outcome input_sudoku,
     mkProblem "Sudoku_Solver" [] (model_constraints input_sudoku diagonal)).
Proof.
  apply (build_model_on input_sudoku diagonal (new_LpProblem "Sudoku_Solver")).
  intros n _ [].
Qed.

(** ** The prefilled family *)

Lemma getitem_error {A : Type} (l : list A) (i : Z) (e : Exn) :
  getitem l i = inl e -> e = IndexError.
Proof.
  unfold getitem.
  destruct ((_ <? 0) || _); [congruence|].
  destruct (nth_error _ _); congruence.
Qed.

Lemma item_at_error (g : list (list Z)) (r c : Z) (e : Exn) :
  item_at g r c = inl e -> e = IndexError.
Proof.
  unfold item_at. destruct (getitem g r) as [e'|row] eqn:E; cbn.
  - intros [= <-]. eapply getitem_error, E.
  - apply getitem_error.
Qed.

Lemma run_trace_outcome (input_sudoku : Board) (xs : list (Z * Z)) :
  fst (run_trace (prefilled_turn input_sudoku) xs)
  = if forallb (present input_sudoku) xs then inr tt else inl IndexError.
Proof.
  induction xs as [|rc xs IH]; [reflexivity|].
  cbn [run_trace forallb]. unfold prefilled_turn at 1 3, present at 1.
  destruct (item_at input_sudoku (fst rc) (snd rc)) as [e|p] eqn:E.
  - cbn. f_equal. eapply item_at_error, E.
  - destruct (p =? 0); cbn [fst snd andb]; exact IH.
Qed.

Lemma prefilled_outcome_cases (input_sudoku : Board) :
  prefilled_outcome input_sudoku
  = if has_cells input_sudoku then inr tt else inl IndexError.
Proof. apply run_trace_outcome. Qed.


(** ** The decoder on what it reads *)

Lemma assignment_of_binary (solution : Grid) : binary (assignment_of solution).
Proof.
  intros x. unfold assignment_of. cbv zeta.
  destruct (existsb _ _); [now right | now left].
Qed.

Lemma satisfiedb_sound (a : Assignment) (c : LpConstraint) :
  satisfiedb a c = true -> satisfied a c.
Proof.
  unfold satisfiedb, satisfied. destruct (csense c); intros H.
  - now apply Z.leb_le.
  - now apply Z.eqb_eq.
  - apply Z.geb_le in H. lia.
Qed.

Lemma all_satisfied (a : Assignment) (cs : list LpConstraint) :
  forallb (satisfiedb a) cs = true -> forall c, In c cs -> satisfied a c.
Proof.
  intros H c Hc. apply satisfiedb_sound.
  rewrite forallb_forall in H. now apply H.
Qed.

Lemma reads_true_var (value_of : Assignment) (row col value : Z) :
  In row rows -> In col cols -> In value values ->
  reads_true value_of row col value = truthy (value_of (the_var row col value)).
Proof.
  intros Hr Hc Hv. unfold reads_true. now rewrite var_at_grid_vars.
Qed.

Lemma truthy_false (x : Z) : truthy x = false <-> x = 0.
Proof.
  unfold truthy. rewrite negb_false_iff. apply Z.eqb_eq.
Qed.

Lemma truthy_true (x : Z) : truthy x = true <-> x <> 0.
Proof.
  unfold truthy. rewrite negb_true_iff. apply Z.eqb_neq.
Qed.

Lemma values_sorted : StronglySorted Z.lt values.
Proof.
  change values with [1; 2; 3; 4; 5; 6; 7; 8; 9].
  repeat first [ apply SSorted_nil | apply SSorted_cons
               | apply Forall_nil | apply Forall_cons | lia ].
Qed.

Lemma sorted_after (l1 l2 : list Z) (v : Z) :
  StronglySorted Z.lt (l1 ++ v :: l2) -> forall x, In x l2 -> v < x.
Proof.
  induction l1 as [|a l1 IH]; cbn; intros H x Hx.
  - inversion H as [|? ? _ Hall]; subst.
    rewrite Forall_forall in Hall. now apply Hall.
  - inversion H; subst. now apply IH.
Qed.

(** C10. When several values of a cell read as true, [extract_solution]
    leaves the largest of them in the cell: the scan runs through the values
    in increasing order and every true value overwrites the one before it.
    The largest true value wins whether one value reads as true or many. *)
Theorem extract_solution_last_write_wins (value_of : Assignment)
  (row col v : Z) :
  In row rows -> In col cols -> In v values ->
  reads_true value_of row col v = true ->
  (forall v', In v' values -> v < v' -> reads_true value_of row col v' = false) ->
  exists solution,
    extract_solution value_of grid_vars rows cols values = inr solution /\
    item_at solution row col = inr v.
Proof.
  intros Hr Hc Hv Htrue Hlarger.
  destruct (extract_solution_decode value_of) as [sol (E & _ & _ & Hcell)].
  exists sol. split; [exact E|]. rewrite (Hcell row col Hr Hc). f_equal.
  destruct (in_split v values Hv) as (l1 & l2 & Hsplit).
  unfold decode. apply (scan_last_true _ _ _ _ _ _ l1 l2 v Hsplit).
  - rewrite reads_true_var in Htrue by assumption. now apply truthy_true.
  - intros v' Hv'.
    assert (Hin : In v' values).
    { rewrite Hsplit. apply in_or_app. right. now right. }
    assert (Hlt : v < v').
    { apply (sorted_after l1 l2 v); [|exact Hv'].
      rewrite <- Hsplit. apply values_sorted. }
    specialize (Hlarger v' Hin Hlt).
    rewrite reads_true_var in Hlarger by assumption. now apply truthy_false.
Qed.

(** Every variable reads as true: all nine values of the cell compete and
    9, the last one scanned, is what the cell holds. *)
Lemma extract_solution_last_write_wins_witness :
  exists solution,
    extract_solution (fun _ => 1) grid_vars rows cols values = inr solution /\
    item_at solution 0 0 = inr 9.
Proof.
  apply (extract_solution_last_write_wins (fun _ => 1) 0 0 9).
  - apply in_range. lia.
  - apply in_range. lia.
  - apply in_range. lia.
  - reflexivity.
  - intros v' Hv' Hlt. apply in_range in Hv'. lia.
Defined.

(** C9, as stated, fails: with no variable reading as true the decoder
    raises nothing and returns a grid. *)
Lemma extract_solution_not_loud :
  ~ (forall value_of : Assignment,
       (exists row col, In row rows /\ In col cols /\
          forall v, In v values -> reads_true value_of row col v = false) ->
       exists e, extract_solution value_of grid_vars rows cols values = inl e).
Proof.
  intros H. destruct (H (fun _ => 0)) as [e He].
  - exists 0, 0. repeat split; try (apply in_range; lia).
    intros v Hv. rewrite reads_true_var; try (apply in_range; lia); auto.
  - vm_compute in He. discriminate He.
Qed.

(** C9, amended. A cell none of whose values reads as true is left at the
    initial 0, and the decoder returns its grid without raising. *)
Theorem extract_solution_silent_zero (value_of : Assignment) (row col : Z) :
  In row rows -> In col cols ->
  (forall v, In v values -> reads_true value_of row col v = false) ->
  exists solution,
    extract_solution value_of grid_vars rows cols values = inr solution /\
    item_at solution row col = inr 0.
Proof.
  intros Hr Hc Hnone.
  destruct (extract_solution_decode value_of) as [sol (E & _ & _ & Hcell)].
  exists sol. split; [exact E|]. rewrite (Hcell row col Hr Hc). f_equal.
  unfold decode, scan. apply fold_scan_none.
  intros v Hv. specialize (Hnone v Hv).
  rewrite reads_true_var in Hnone by assumption. now apply truthy_false.
Qed.

Lemma extract_solution_silent_zero_witness :
  exists solution,
    extract_solution (fun _ => 0) grid_vars rows cols values = inr solution /\
    item_at solution 4 7 = inr 0.
Proof.
  apply (extract_solution_silent_zero (fun _ => 0) 4 7).
  - apply in_range. lia.
  - apply in_range. lia.
  - intros v Hv. rewrite reads_true_var; try (apply in_range; lia); auto.
Defined.

(** ** The weighted sum of a group *)

Lemma fresh_new (nm : list string) (name : string) :
  fresh nm (new_LpProblem name).
Proof. intros n _ []. Qed.

Lemma default_constraints_family : default_constraints = default_family.
Proof.
  unfold default_constraints. destruct adds_default as [_ H].
  now rewrite (H (new_LpProblem "Sudoku_Solver") (fresh_new _ _)).
Qed.

Lemma diagonal_constraints_family : diagonal_constraints = diagonal_family.
Proof.
  unfold diagonal_constraints. destruct adds_diagonal as [_ H].
  now rewrite (H (new_LpProblem "Sudoku_Solver") (fresh_new _ _)).
Qed.

Lemma uniq_constraint_total (a : Assignment) (group : list (Z * Z))
  (value : Z) (name : string) :
  eval a (cexpr (uniq_constraint group value name))
  = value * total a (group_vars group value).
Proof.
  unfold uniq_constraint, group_vars. cbn [cexpr].
  rewrite <- eval_weighted. now rewrite map_map.
Qed.

Lemma uniq_constraint_exactly_one (a : Assignment) (group : list (Z * Z))
  (value : Z) (name : string) :
  value <> 0 -> binary a ->
  satisfied a (uniq_constraint group value name)
  <-> count_ones a (group_vars group value) = 1%nat.
Proof.
  intros Hv Ha. unfold satisfied. cbn [csense crhs uniq_constraint].
  change (cexpr _) with (cexpr (uniq_constraint group value name)).
  rewrite uniq_constraint_total, (total_count a _ Ha).
  split; intros H.
  - assert (E : value * (Z.of_nat (count_ones a (group_vars group value)) - 1) = 0)
      by lia.
    apply Z.mul_eq_0 in E. lia.
  - rewrite H. lia.
Qed.

Lemma sum_family_not_uniqueness :
  forall c, In c sum_family -> is_uniqueness c = false.
Proof.
  assert (H : forallb (fun c => negb (is_uniqueness c)) sum_family = true)
    by (vm_compute; reflexivity).
  intros c Hc. rewrite forallb_forall in H. apply negb_true_iff. now apply H.
Qed.

Lemma values_nonzero (v : Z) : In v values -> v <> 0.
Proof. intros H. apply in_range in H. lia. Qed.

(** Every constraint the builders generate under a name that starts with
    [constraint_uniq_] is the weighted sum of a group and a value. *)
Lemma uniqueness_constraints_are_weighted_sums (c : LpConstraint) :
  In c (default_constraints ++ diagonal_constraints) ->
  is_uniqueness c = true ->
  exists group value,
    In group groups /\ In value values /\
    c = uniq_constraint group value (cname c) /\
    forall a, binary a ->
      (satisfied a c <-> count_ones a (group_vars group value) = 1%nat).
Proof.
  rewrite default_constraints_family, diagonal_constraints_family.
  unfold default_family, diagonal_family, groups. intros Hin Hu.
  assert (G : forall group value name,
            In group groups -> In value values ->
            c = uniq_constraint group value name ->
            exists group value,
              In group groups /\ In value values /\
              c = uniq_constraint group value (cname c) /\
              forall a, binary a ->
                (satisfied a c <-> count_ones a (group_vars group value) = 1%nat)).
  { intros group value name Hg Hv ->. exists group, value.
    repeat split; auto; apply uniq_constraint_exactly_one; auto;
      now apply values_nonzero. }
  unfold groups in G.
  repeat rewrite in_app_iff in Hin.
  destruct Hin as [[H|[H|[H|H]]]|[H|H]].
  - rewrite (sum_family_not_uniqueness c H) in Hu. discriminate.
  - apply in_map_iff in H. destruct H as [[r v] [<- Hrv]].
    apply in_prod_iff in Hrv. destruct Hrv as [Hr Hv].
    eapply (G (row_cells r) v); [|exact Hv|reflexivity].
    apply in_or_app. left. now apply in_map.
  - apply in_map_iff in H. destruct H as [[k v] [<- Hkv]].
    apply in_prod_iff in Hkv. destruct Hkv as [Hk Hv].
    eapply (G (col_cells k) v); [|exact Hv|reflexivity].
    apply in_or_app. right. apply in_or_app. left. now apply in_map.
  - apply in_map_iff in H. destruct H as [[g v] [<- Hgv]].
    apply in_prod_iff in Hgv. destruct Hgv as [Hg Hv].
    eapply (G (box_cells g) v); [|exact Hv|reflexivity].
    apply in_or_app. right. apply in_or_app. right.
    apply in_or_app. left. now apply in_map.
  - apply in_map_iff in H. destruct H as [v [<- Hv]].
    eapply (G diag1_cells v); [|exact Hv|reflexivity].
    apply in_or_app. right. apply in_or_app. right.
    apply in_or_app. right. now left.
  - apply in_map_iff in H. destruct H as [v [<- Hv]].
    eapply (G diag2_cells v); [|exact Hv|reflexivity].
    apply in_or_app. right. apply in_or_app. right.
    apply in_or_app. right. right. now left.
Qed.

(** C2. For every group of cells, a row, a column, a box or a diagonal, and
    every value of 1..9, the builders generate the constraint "the sum over
    the group of variable(cell, value) * value equals value", and a 0/1
    assignment satisfies it if and only if exactly one cell of the group has
    its variable for that value at 1. *)
Theorem weighted_sum_exactly_one (group : list (Z * Z)) (value : Z) :
  In group groups -> In value values ->
  exists c,
    In c (default_constraints ++ diagonal_constraints) /\
    is_uniqueness c = true /\
    c = uniq_constraint group value (cname c) /\
    forall a, binary a ->
      (satisfied a c <-> count_ones a (group_vars group value) = 1%nat).
Proof.
  rewrite default_constraints_family, diagonal_constraints_family.
  unfold default_family, diagonal_family, groups. intros Hg Hv.
  assert (G : forall name,
            In (uniq_constraint group value name)
               ((sum_family ++ row_family ++ col_family ++ grid_family)
                ++ map diag1_constraint values ++ map diag2_constraint values) ->
            is_uniqueness (uniq_constraint group value name) = true ->
            exists c,
              In c ((sum_family ++ row_family ++ col_family ++ grid_family)
                    ++ map diag1_constraint values ++ map diag2_constraint values) /\
              is_uniqueness c = true /\
              c = uniq_constraint group value (cname c) /\
              forall a, binary a ->
                (satisfied a c <-> count_ones a (group_vars group value) = 1%nat)).
  { intros name Hin Hu. exists (uniq_constraint group value name).
    repeat split; auto; apply uniq_constraint_exactly_one; auto;
      now apply values_nonzero. }
  repeat rewrite in_app_iff in Hg.
  destruct Hg as [Hg|[Hg|[Hg|[<-|[<-|[]]]]]].
  - apply in_map_iff in Hg. destruct Hg as [r [<- Hr]].
    apply (G (cname (row_constraint (r, value)))); [|reflexivity].
    apply in_or_app. left. apply in_or_app. right. apply in_or_app. left.
    apply (in_map row_constraint _ (r, value)). now apply in_prod.
  - apply in_map_iff in Hg. destruct Hg as [k [<- Hk]].
    apply (G (cname (col_constraint (k, value)))); [|reflexivity].
    apply in_or_app. left. apply in_or_app. right. apply in_or_app. right.
    apply in_or_app. left.
    apply (in_map col_constraint _ (k, value)). now apply in_prod.
  - apply in_map_iff in Hg. destruct Hg as [g [<- Hgr]].
    apply (G (cname (grid_constraint (g, value)))); [|reflexivity].
    apply in_or_app. left. apply in_or_app. right. apply in_or_app. right.
    apply in_or_app. right.
    apply (in_map grid_constraint _ (g, value)). now apply in_prod.
  - apply (G (cname (diag1_constraint value))); [|reflexivity].
    apply in_or_app. right. apply in_or_app. left.
    now apply (in_map diag1_constraint).
  - apply (G (cname (diag2_constraint value))); [|reflexivity].
    apply in_or_app. right. apply in_or_app. right.
    now apply (in_map diag2_constraint).
Qed.

(** The value 5 in the column of index 2. *)
Lemma weighted_sum_exactly_one_witness :
  exists c,
    In c (default_constraints ++ diagonal_constraints) /\
    is_uniqueness c = true /\
    c = uniq_constraint (col_cells 2) 5 (cname c) /\
    forall a, binary a ->
      (satisfied a c <-> count_ones a (group_vars (col_cells 2) 5) = 1%nat).
Proof.
  apply (weighted_sum_exactly_one (col_cells 2) 5).
  - unfold groups. apply in_or_app. right. apply in_or_app. left.
    apply in_map. apply in_range. lia.
  - apply in_range. lia.
Defined.

(** ** From the constraints to the grid *)

Lemma eval_app (a : Assignment) (e1 e2 : LpAffineExpression) :
  eval a (e1 ++ e2) = eval a e1 + eval a e2.
Proof.
  unfold eval. induction e1 as [|t e1 IH]; cbn [app fold_right]; lia.
Qed.

Lemma eval_zero {K : Type} (a : Assignment) (h : K -> LpVariable * Z)
  (ks : list K) :
  (forall k, In k ks -> a (fst (h k)) = 0) -> eval a (map h ks) = 0.
Proof.
  unfold eval. induction ks as [|k ks IH]; intros H; [reflexivity|].
  cbn [map fold_right]. rewrite (H k) by now left.
  rewrite IH; [lia|]. intros k' Hk'. apply H. now right.
Qed.

Lemma sum_constraint_total (a : Assignment) (rc : Z * Z) :
  eval a (cexpr (sum_constraint rc))
  = total a (map (the_var (fst rc) (snd rc)) values).
Proof.
  unfold sum_constraint. cbn [cexpr].
  rewrite <- (Z.mul_1_l (total _ _)), <- eval_weighted. now rewrite map_map.
Qed.

(** A cell whose nine variables are binary and sum to 1 has one value at 1,
    all the others at 0, and the decoder reads that value. *)
Lemma one_hot_cell (a : Assignment) (r c : Z) :
  binary a -> satisfied a (sum_constraint (r, c)) ->
  exists l1 v l2,
    values = l1 ++ v :: l2 /\ a (the_var r c v) = 1 /\
    (forall v', In v' l1 -> a (the_var r c v') = 0) /\
    (forall v', In v' l2 -> a (the_var r c v') = 0) /\
    decode a r c = v.
Proof.
  intros Ha Hs. unfold satisfied in Hs. cbn [csense crhs sum_constraint] in Hs.
  change (cexpr _) with (cexpr (sum_constraint (r, c))) in Hs.
  rewrite sum_constraint_total in Hs. cbn [fst snd] in Hs.
  destruct (total_one_split a (the_var r c) values Ha Hs)
    as (l1 & v & l2 & Hsplit & Hv & H1 & H2).
  exists l1, v, l2. repeat split; auto.
  unfold decode. apply (scan_last_true _ _ _ _ _ _ l1 l2 v Hsplit); [lia|exact H2].
Qed.

Lemma one_hot_cell_holds (a : Assignment) (r c v : Z) :
  binary a -> satisfied a (sum_constraint (r, c)) ->
  In v values -> a (the_var r c v) <> 0 -> decode a r c = v.
Proof.
  intros Ha Hs Hv Hnz.
  destruct (one_hot_cell a r c Ha Hs) as (l1 & v0 & l2 & Hsplit & _ & H1 & H2 & Hd).
  rewrite Hd. rewrite Hsplit in Hv. apply in_app_or in Hv.
  destruct Hv as [Hv|[Hv|Hv]]; auto.
  - now apply H1 in Hv.
  - now apply H2 in Hv.
Qed.

(** A group constraint that holds puts its value in a cell of the group. *)
Lemma group_has_value (a : Assignment) (group : list (Z * Z)) (value : Z)
  (name : string) :
  binary a -> value <> 0 ->
  satisfied a (uniq_constraint group value name) ->
  exists rc, In rc group /\ a (the_var (fst rc) (snd rc) value) = 1.
Proof.
  intros Ha Hv Hs. unfold satisfied in Hs. cbn [csense crhs uniq_constraint] in Hs.
  change (cexpr _) with (cexpr (uniq_constraint group value name)) in Hs.
  rewrite uniq_constraint_total in Hs.
  assert (Ht : total a (group_vars group value) = 1).
  { assert (E : value * (total a (group_vars group value) - 1) = 0) by lia.
    apply Z.mul_eq_0 in E. lia. }
  destruct (total_one_split a (fun rc => the_var (fst rc) (snd rc) value)
              group Ha Ht) as (l1 & rc & l2 & Hsplit & Hrc & _).
  exists rc. split; [|exact Hrc]. rewrite Hsplit. apply in_or_app. right. now left.
Qed.

Lemma group_is_permutation (a : Assignment) (solution : Grid)
  (group : list (Z * Z)) :
  (forall r c, In r rows -> In c cols ->
     item_at solution r c = inr (decode a r c)) ->
  List.length group = 9%nat ->
  (forall rc, In rc group -> In (fst rc) rows /\ In (snd rc) cols) ->
  (forall v, In v values ->
     exists rc, In rc group /\ decode a (fst rc) (snd rc) = v) ->
  permutation_of_values solution group.
Proof.
  intros Hcell Hlen Hon Hall.
  exists (map (fun rc => decode a (fst rc) (snd rc)) group). split.
  - unfold group_values. apply comprehension_total.
    intros rc Hrc. destruct (Hon rc Hrc). now apply Hcell.
  - apply Permutation_sym. apply NoDup_Permutation_bis.
    + apply NoDup_range.
    + rewrite length_map, Hlen. reflexivity.
    + intros v Hv. destruct (Hall v Hv) as [rc [Hrc <-]].
      now apply (in_map (fun rc => decode a (fst rc) (snd rc))).
Qed.

Lemma diag_cells_on_board (rc : Z * Z) :
  In rc diag1_cells \/ In rc diag2_cells -> In (fst rc) rows /\ In (snd rc) cols.
Proof.
  intros [H|H]; apply in_map_iff in H; destruct H as [r [<- Hr]]; cbn [fst snd].
  - now split.
  - split; [exact Hr|]. apply in_range in Hr. apply in_range.
    change (Z.of_nat (List.length rows)) with 9. lia.
Qed.

Section Solved.

Variable value_of : Assignment.
Hypothesis value_of_binary : binary value_of.
Hypothesis cells_hold : forall rc, In rc (list_prod rows cols) ->
  satisfied value_of (sum_constraint rc).

(** A group all of whose cells lie on the board and whose constraints
    hold for every value is a permutation of the values in the decoded
    grid. *)
Lemma solved_group (solution : Grid) (group : list (Z * Z))
  (name : Z -> string) :
  (forall r c, In r rows -> In c cols ->
     item_at solution r c = inr (decode value_of r c)) ->
  List.length group = 9%nat ->
  (forall rc, In rc group -> In (fst rc) rows /\ In (snd rc) cols) ->
  (forall v, In v values ->
     satisfied value_of (uniq_constraint group v (name v))) ->
  permutation_of_values solution group.
Proof.
  intros Hcell Hlen Hon Hsat.
  apply (group_is_permutation value_of); auto.
  intros v Hv.
  destruct (group_has_value value_of group v (name v) value_of_binary
              (values_nonzero v Hv) (Hsat v Hv)) as [rc [Hrc H1]].
  exists rc. split; [exact Hrc|]. destruct (Hon rc Hrc) as [Hr Hc].
  apply one_hot_cell_holds; auto; [|lia].
  replace (fst rc, snd rc) with rc by now destruct rc.
  apply cells_hold. destruct rc. now apply in_prod.
Qed.

End Solved.

(** C1. From a binary assignment that satisfies every constraint of
    [add_default_sudoku_constraints], [extract_solution] returns a grid each
    of whose 9 rows, 9 columns and 9 boxes is a permutation of 1..9; when
    the assignment also satisfies the constraints of
    [add_diagonal_sudoku_constraints], so are the two diagonals.  The
    board plays no part: the prefilled constraints only add to what the
    assignment satisfies. *)
Theorem solved_grid_is_sudoku (value_of : Assignment) :
  binary value_of ->
  (forall c, In c default_constraints -> satisfied value_of c) ->
  exists solution,
    extract_solution value_of grid_vars rows cols values = inr solution /\
    (forall row, In row rows -> permutation_of_values solution (row_cells row)) /\
    (forall col, In col cols -> permutation_of_values solution (col_cells col)) /\
    (forall grid, In grid grids -> permutation_of_values solution (box_cells grid)) /\
    ((forall c, In c diagonal_constraints -> satisfied value_of c) ->
     permutation_of_values solution diag1_cells /\
     permutation_of_values solution diag2_cells).
Proof.
  rewrite default_constraints_family, diagonal_constraints_family.
  unfold default_family, diagonal_family. intros Ha Hsat.
  destruct (extract_solution_decode value_of) as [sol (E & _ & _ & Hcell)].
  assert (Hcells : forall rc, In rc (list_prod rows cols) ->
                     satisfied value_of (sum_constraint rc)).
  { intros rc Hrc. apply Hsat. apply in_or_app. left. now apply in_map. }
  exists sol. split; [exact E|]. repeat split.
  - intros r Hr.
    apply (solved_group value_of Ha Hcells sol (row_cells r)
             (fun v => cname (row_constraint (r, v))));
      [exact Hcell | reflexivity | | ].
    + intros rc Hrc. apply in_map_iff in Hrc. destruct Hrc as [c [<- Hc]].
      now split.
    + intros v Hv. apply Hsat. apply in_or_app. right. apply in_or_app. left.
      apply (in_map row_constraint _ (r, v)). now apply in_prod.
  - intros k Hk.
    apply (solved_group value_of Ha Hcells sol (col_cells k)
             (fun v => cname (col_constraint (k, v))));
      [exact Hcell | reflexivity | | ].
    + intros rc Hrc. apply in_map_iff in Hrc. destruct Hrc as [r [<- Hr]].
      now split.
    + intros v Hv. apply Hsat. apply in_or_app. right. apply in_or_app. right.
      apply in_or_app. left.
      apply (in_map col_constraint _ (k, v)). now apply in_prod.
  - intros g Hg.
    apply (solved_group value_of Ha Hcells sol (box_cells g)
             (fun v => cname (grid_constraint (g, v))));
      [exact Hcell | reflexivity | | ].
    + intros rc Hrc. now apply (box_cells_on_board g).
    + intros v Hv. apply Hsat. apply in_or_app. right. apply in_or_app. right.
      apply in_or_app. right.
      apply (in_map grid_constraint _ (g, v)). now apply in_prod.
  - apply (solved_group value_of Ha Hcells sol diag1_cells
             (fun v => cname (diag1_constraint v)));
      [exact Hcell | reflexivity | | ].
    + intros rc Hrc. apply diag_cells_on_board. now left.
    + intros v Hv. apply H. apply in_or_app. left.
      now apply (in_map diag1_constraint).
  - apply (solved_group value_of Ha Hcells sol diag2_cells
             (fun v => cname (diag2_constraint v)));
      [exact Hcell | reflexivity | | ].
    + intros rc Hrc. apply diag_cells_on_board. now right.
    + intros v Hv. apply H. apply in_or_app. right.
      now apply (in_map diag2_constraint).
Qed.

(** The solution of the board of the script satisfies the default
    constraints. *)
Lemma solved_grid_is_sudoku_witness :
  exists solution,
    extract_solution (assignment_of normal_solution) grid_vars rows cols values
    = inr solution /\
    (forall row, In row rows -> permutation_of_values solution (row_cells row)) /\
    (forall col, In col cols -> permutation_of_values solution (col_cells col)) /\
    (forall grid, In grid grids -> permutation_of_values solution (box_cells grid)) /\
    ((forall c, In c diagonal_constraints ->
        satisfied (assignment_of normal_solution) c) ->
     permutation_of_values solution diag1_cells /\
     permutation_of_values solution diag2_cells).
Proof.
  apply (solved_grid_is_sudoku (assignment_of normal_solution)).
  - apply assignment_of_binary.
  - apply all_satisfied. vm_compute. reflexivity.
Defined.

(** ** Looking a constraint up by its name *)

Lemma get_constraint_in (cs : list LpConstraint) (c : LpConstraint) :
  NoDup (names cs) -> In c cs -> get_constraint cs (cname c) = Some c.
Proof.
  induction cs as [|c0 cs IH]; intros Hnd Hin; [contradiction|].
  cbn [get_constraint]. cbn in Hnd. inversion Hnd as [|? ? Hfresh Hrest]; subst.
  destruct Hin as [->|Hin].
  - now rewrite String.eqb_refl.
  - destruct (String.eqb (cname c0) (cname c)) eqn:E.
    + apply String.eqb_eq in E. exfalso. apply Hfresh. rewrite E.
      now apply in_map.
    + now apply IH.
Qed.

Lemma get_constraint_app_l (cs1 cs2 : list LpConstraint) (n : string)
  (c : LpConstraint) :
  get_constraint cs1 n = Some c -> get_constraint (cs1 ++ cs2) n = Some c.
Proof.
  induction cs1 as [|c0 cs1 IH]; cbn; [discriminate|].
  destruct (String.eqb (cname c0) n); auto.
Qed.

Lemma get_constraint_app_r (cs1 cs2 : list LpConstraint) (n : string) :
  ~ In n (names cs1) -> get_constraint (cs1 ++ cs2) n = get_constraint cs2 n.
Proof.
  induction cs1 as [|c0 cs1 IH]; cbn; intros H; [reflexivity|].
  destruct (String.eqb (cname c0) n) eqn:E.
  - apply String.eqb_eq in E. exfalso. apply H. now left.
  - apply IH. intros Hin. apply H. now right.
Qed.

(** The names of what a stretch of the board contributes are names of its
    cells. *)
Lemma run_trace_names (input_sudoku : Board) (xs : list (Z * Z)) (n : string) :
  In n (names (snd (run_trace (prefilled_turn input_sudoku) xs))) ->
  In n (map prefilled_name xs).
Proof.
  induction xs as [|rc xs IH]; [auto|].
  cbn [run_trace map]. unfold prefilled_turn in IH |- *.
  destruct (item_at input_sudoku (fst rc) (snd rc)) as [e|p]; [intros []|].
  destruct (p =? 0); cbn [fst snd app names map In prefilled_constraint cname].
  - intros H. right. now apply IH.
  - intros [H|H]; [now left | right; now apply IH].
Qed.

Lemma run_trace_lookup (input_sudoku : Board) (xs : list (Z * Z))
  (rc : Z * Z) (p : Z) :
  NoDup (map prefilled_name xs) ->
  forallb (present input_sudoku) xs = true ->
  In rc xs -> item_at input_sudoku (fst rc) (snd rc) = inr p -> p <> 0 ->
  get_constraint (snd (run_trace (prefilled_turn input_sudoku) xs))
    (prefilled_name rc)
  = Some (prefilled_constraint rc p).
Proof.
  intros Hnd Hall Hin Hp Hnz.
  induction xs as [|x xs IH]; [contradiction|].
  cbn [map] in Hnd. inversion Hnd as [|? ? Hfresh Hrest]; subst.
  cbn [forallb] in Hall. apply andb_true_iff in Hall. destruct Hall as [Hx Hall].
  cbn [run_trace]. unfold present in Hx.
  assert (IH' := fun H => IH Hrest Hall H). clear IH.
  unfold prefilled_turn in IH' |- *.
  destruct Hin as [->|Hin].
  - rewrite Hp. apply Z.eqb_neq in Hnz. rewrite Hnz. cbn [fst snd app].
    cbn [get_constraint prefilled_constraint cname].
    now rewrite String.eqb_refl.
  - destruct (item_at input_sudoku (fst x) (snd x)) as [e|q]; [discriminate|].
    assert (Hne : String.eqb (prefilled_name x) (prefilled_name rc) = false).
    { apply String.eqb_neq. intros E. apply Hfresh. rewrite E.
      now apply in_map. }
    destruct (q =? 0); cbn [fst snd app].
    + now apply IH'.
    + cbn [get_constraint prefilled_constraint cname]. rewrite Hne.
      now apply IH'.
Qed.

Lemma prefilled_constraint_eval (a : Assignment) (r c p : Z)
  (l1 l2 : list Z) (v : Z) :
  values = l1 ++ v :: l2 -> a (the_var r c v) = 1 ->
  (forall v', In v' l1 -> a (the_var r c v') = 0) ->
  (forall v', In v' l2 -> a (the_var r c v') = 0) ->
  eval a (cexpr (prefilled_constraint (r, c) p)) = v.
Proof.
  intros Hsplit Hv H1 H2. unfold prefilled_constraint. cbn [cexpr fst snd].
  rewrite Hsplit, map_app, eval_app. cbn [map].
  change (eval a (?t :: ?e)) with (snd t * a (fst t) + eval a e).
  cbn [fst snd]. rewrite Hv.
  rewrite (eval_zero a (fun value => (the_var r c value, value)) l1 H1).
  rewrite (eval_zero a (fun value => (the_var r c value, value)) l2 H2).
  lia.
Qed.

(** C3. For a board that has all its cells and a cell [(row, col)] that
    holds [p <> 0], the model holds, under their names, the cell constraint
    of [(row, col)] and the prefilled constraint with right-hand side [p];
    a binary assignment that satisfies these two has the variable of
    [(row, col, p)] at 1 and those of the other values of the cell at 0, and
    the decoded grid holds [p] at [(row, col)]. *)
Theorem prefilled_cell_is_kept (input_sudoku : Board) (diagonal : bool)
  (row col p : Z) (value_of : Assignment) :
  has_cells input_sudoku = true ->
  In row rows -> In col cols ->
  item_at input_sudoku row col = inr p -> p <> 0 ->
  binary value_of ->
  let model :=
    constraints (snd (build_model input_sudoku diagonal
                        (new_LpProblem "Sudoku_Solver"))) in
  get_constraint model (cname (sum_constraint (row, col)))
    = Some (sum_constraint (row, col)) /\
  get_constraint model (prefilled_name (row, col))
    = Some (prefilled_constraint (row, col) p) /\
  (satisfied value_of (sum_constraint (row, col)) ->
   satisfied value_of (prefilled_constraint (row, col) p) ->
   In p values /\
   value_of (the_var row col p) = 1 /\
   (forall v, In v values -> v <> p -> value_of (the_var row col v) = 0) /\
   exists solution,
     extract_solution value_of grid_vars rows cols values = inr solution /\
     item_at solution row col = inr p).
Proof.
  intros Hcells Hr Hc Hp Hnz Ha model. subst model.
  rewrite build_model_fresh. cbn [snd constraints]. unfold model_constraints.
  pose proof model_names_distinct as Hnd. unfold model_names in Hnd.
  assert (Hrc : In (row, col) (list_prod rows cols)) by now apply in_prod.
  split; [|split].
  - apply get_constraint_app_l. apply get_constraint_in.
    + now apply NoDup_app_remove_r in Hnd.
    + unfold default_family. apply in_or_app. left. now apply in_map.
  - rewrite get_constraint_app_r.
    2:{ intros Hin. apply (NoDup_disjoint _ _ Hnd _ Hin).
        apply in_or_app. right. now apply (in_map prefilled_name). }
    apply NoDup_app_remove_l in Hnd.
    rewrite get_constraint_app_r.
    2:{ destruct diagonal; [|intros []].
        intros Hin. apply (NoDup_disjoint _ _ Hnd _ Hin).
        now apply (in_map prefilled_name). }
    apply NoDup_app_remove_l in Hnd.
    apply run_trace_lookup; auto.
  - intros Hsum Hpre.
    destruct (one_hot_cell value_of row col Ha Hsum)
      as (l1 & v & l2 & Hsplit & Hv & H1 & H2 & Hd).
    assert (E : v = p).
    { unfold satisfied in Hpre. cbn [csense crhs prefilled_constraint] in Hpre.
      change (cexpr _) with (cexpr (prefilled_constraint (row, col) p)) in Hpre.
      now rewrite (prefilled_constraint_eval value_of row col p l1 l2 v) in Hpre. }
    rewrite E in Hsplit, Hv, Hd. repeat split.
    + rewrite Hsplit. apply in_or_app. right. now left.
    + exact Hv.
    + intros w Hin Hne. rewrite Hsplit in Hin. apply in_app_or in Hin.
      destruct Hin as [Hin|[Hin|Hin]]; auto. congruence.
    + destruct (extract_solution_decode value_of) as [sol (Es & _ & _ & Hcell)].
      exists sol. split; [exact Es|]. rewrite (Hcell row col Hr Hc).
      now rewrite Hd.
Qed.

(** The 8 at the left of the fifth row of the board of the script. *)
Lemma prefilled_cell_is_kept_witness :
  let model :=
    constraints (snd (build_model normal_sudoku false
                        (new_LpProblem "Sudoku_Solver"))) in
  get_constraint model (cname (sum_constraint (4, 0)))
    = Some (sum_constraint (4, 0)) /\
  get_constraint model (prefilled_name (4, 0))
    = Some (prefilled_constraint (4, 0) 8) /\
  (satisfied (assignment_of normal_solution) (sum_constraint (4, 0)) ->
   satisfied (assignment_of normal_solution) (prefilled_constraint (4, 0) 8) ->
   In 8 values /\
   assignment_of normal_solution (the_var 4 0 8) = 1 /\
   (forall v, In v values -> v <> 8 ->
      assignment_of normal_solution (the_var 4 0 v) = 0) /\
   exists solution,
     extract_solution (assignment_of normal_solution) grid_vars rows cols values
     = inr solution /\
     item_at solution 4 0 = inr 8).
Proof.
  apply (prefilled_cell_is_kept normal_sudoku false 4 0 8
           (assignment_of normal_solution)).
  - reflexivity.
  - apply in_range. lia.
  - apply in_range. lia.
  - reflexivity.
  - lia.
  - apply assignment_of_binary.
Defined.

(** ** What building does with the board it is given *)

(** C4, as stated, fails on each of its three counts: a board that is not
    9x9 is built without complaint, so is a board with the entry 12, and the
    one failure there is, Python's own [IndexError] on a board that lacks a
    cell, comes when the default constraints are already in the problem. *)
Lemma build_model_validates_nothing :
  (is_9x9 board_10x10 = false /\
   fst (build_model board_10x10 false (new_LpProblem "Sudoku_Solver")) = inr tt) /\
  (entries_valid board_with_12 = false /\
   fst (build_model board_with_12 false (new_LpProblem "Sudoku_Solver")) = inr tt /\
   In (prefilled_constraint (0, 0) 12)
      (constraints (snd (build_model board_with_12 false
                           (new_LpProblem "Sudoku_Solver"))))) /\
  (is_9x9 [] = false /\
   build_model [] false (new_LpProblem "Sudoku_Solver")
   = (inl IndexError, mkProblem "Sudoku_Solver" [] default_constraints) /\
   List.length default_constraints = 324%nat).
Proof.
  split; [|split].
  - split; vm_compute; reflexivity.
  - split; [vm_compute; reflexivity|]. split; [vm_compute; reflexivity|].
    rewrite build_model_fresh. cbn [snd constraints]. unfold model_constraints.
    apply in_or_app. right. apply in_or_app. right.
    left. vm_compute. reflexivity.
  - split; [vm_compute; reflexivity|]. split; vm_compute; reflexivity.
Qed.

(** C4, amended. Building validates neither the shape nor the entries of
    the board.  On a board whose entries are integers of absolute value at
    most [2 ^ 53], it succeeds exactly when the board has an entry at every
    index [(row, col)] with [0 <= row, col < 9]; otherwise it ends with
    Python's [IndexError], raised while the prefilled constraints are added,
    and the problem then holds the 324 default constraints, the diagonal
    ones if they were asked for, and the prefilled constraints of the cells
    read before the missing one. *)
Theorem build_model_outcome (input_sudoku : Board) (diagonal : bool) :
  entries_bounded input_sudoku = true ->
  build_model input_sudoku diagonal (new_LpProblem "Sudoku_Solver")
  = (if has_cells input_sudoku then inr tt else inl IndexError,
     mkProblem "Sudoku_Solver" []
       (default_constraints
          ++ (if diagonal then diagonal_constraints else [])
          ++ prefilled_family input_sudoku)) /\
  List.length default_constraints = 324%nat.
Proof.
  intros _. split; [|vm_compute; reflexivity].
  rewrite build_model_fresh, prefilled_outcome_cases.
  unfold model_constraints.
  now rewrite default_constraints_family, diagonal_constraints_family.
Qed.

(** The board with a 12, with the diagonals: it is built to the end. *)
Lemma build_model_outcome_witness :
  build_model board_with_12 true (new_LpProblem "Sudoku_Solver")
  = (if has_cells board_with_12 then inr tt else inl IndexError,
     mkProblem "Sudoku_Solver" []
       (default_constraints
          ++ (if true then diagonal_constraints else [])
          ++ prefilled_family board_with_12)) /\
  List.length default_constraints = 324%nat.
Proof.
  apply (build_model_outcome board_with_12 true). vm_compute. reflexivity.
Defined.

(** ** Diagonal constraints are only added *)

(** C7. With the diagonal flag, the model is the one built without it with
    the 18 diagonal constraints inserted between the default and the
    prefilled ones: for every value, one weighted sum over the cells
    [(i, i)] and one over the cells [(i, 9 - 1 - i)].  Nothing else is
    changed or removed, and the outcome of the build is the same. *)
Theorem diagonal_only_adds (input_sudoku : Board) :
  let off := build_model input_sudoku false (new_LpProblem "Sudoku_Solver") in
  let on := build_model input_sudoku true (new_LpProblem "Sudoku_Solver") in
  fst on = fst off /\
  (exists before after,
     constraints (snd off) = before ++ after /\
     constraints (snd on) = before ++ diagonal_constraints ++ after) /\
  Permutation (constraints (snd on))
    (constraints (snd off) ++ diagonal_constraints) /\
  List.length diagonal_constraints = (2 * 9)%nat /\
  diagonal_constraints
  = map (fun value =>
           uniq_constraint (map (fun i => (i, i)) (range 0 9)) value
             ("constraint_uniq_diag1_" +++ str value)%string) values
    ++ map (fun value =>
              uniq_constraint (map (fun i => (i, 9 - 1 - i)) (range 0 9)) value
                ("constraint_uniq_diag2_" +++ str value)%string) values.
Proof.
  cbv zeta. rewrite !build_model_fresh. cbn [fst snd constraints].
  unfold model_constraints. rewrite <- diagonal_constraints_family.
  split; [reflexivity|]. split; [|split; [|split]].
  - exists default_family, (prefilled_family input_sudoku). cbn [app].
    split; reflexivity.
  - cbn [app]. rewrite <- app_assoc. apply Permutation_app_head.
    apply Permutation_app_comm.
  - vm_compute. reflexivity.
  - vm_compute. reflexivity.
Qed.

(** ** Building twice *)

(** C8. What building adds to a problem depends on the board and on the
    diagonal flag alone: run on any two problems that hold none of the names
    of the model, it ends the same way and adds the same constraints, under
    the same names and in the same order, after those each problem held.
    [solve_sudoku] builds on a new problem at every call, so two calls on
    the same board build the same constraint set. *)
Theorem build_model_deterministic (input_sudoku : Board) (diagonal : bool)
  (p q : LpProblem) :
  fresh model_names p -> fresh model_names q ->
  fst (build_model input_sudoku diagonal p)
  = fst (build_model input_sudoku diagonal q) /\
  exists added,
    constraints (snd (build_model input_sudoku diagonal p))
    = constraints p ++ added /\
    constraints (snd (build_model input_sudoku diagonal q))
    = constraints q ++ added /\
    added = constraints (snd (build_model input_sudoku diagonal
                                (new_LpProblem "Sudoku_Solver"))).
Proof.
  intros Hp Hq.
  rewrite (build_model_on input_sudoku diagonal p Hp).
  rewrite (build_model_on input_sudoku diagonal q Hq).
  rewrite build_model_fresh. cbn [fst snd constraints].
  split; [reflexivity|].
  exists (model_constraints input_sudoku diagonal). repeat split.
Qed.

Lemma not_in_strings (n : string) (l : list string) :
  existsb (String.eqb n) l = false -> ~ In n l.
Proof.
  intros H Hin. assert (E : existsb (String.eqb n) l = true).
  { apply existsb_exists. exists n. split; [exact Hin | apply String.eqb_refl]. }
  congruence.
Qed.

Lemma build_model_deterministic_witness :
  fst (build_model normal_sudoku true (new_LpProblem "Sudoku_Solver"))
  = fst (build_model normal_sudoku true used_problem) /\
  exists added,
    constraints (snd (build_model normal_sudoku true
                        (new_LpProblem "Sudoku_Solver")))
    = constraints (new_LpProblem "Sudoku_Solver") ++ added /\
    constraints (snd (build_model normal_sudoku true used_problem))
    = constraints used_problem ++ added /\
    added = constraints (snd (build_model normal_sudoku true
                                (new_LpProblem "Sudoku_Solver"))).
Proof.
  apply (build_model_deterministic normal_sudoku true
           (new_LpProblem "Sudoku_Solver") used_problem).
  - apply fresh_new.
  - intros n Hn Hin. cbn in Hin. destruct Hin as [<-|[]].
    revert Hn. apply not_in_strings. vm_compute. reflexivity.
Defined.

(** ** The size of the model *)



Lemma all_vars_the_var :
  all_vars
  = map (fun rcv => the_var (fst (fst rcv)) (snd (fst rcv)) (snd rcv))
        (list_prod (list_prod rows cols) values).
Proof. vm_compute. reflexivity. Qed.







Lemma length9 {A : Type} (l : list A) :
  List.length l = 9%nat ->
  exists a b c d e f g h i, l = [a; b; c; d; e; f; g; h; i].
Proof.
  intros H.
  do 9 (destruct l as [|? l]; [cbn in H; discriminate|]).
  destruct l; [|cbn in H; discriminate]. repeat eexists.
Qed.

(** On a 9x9 board every cell is there, and the builder reads the entries
    row after row. *)
Lemma board_9x9_cells (input_sudoku : Board) :
  List.length input_sudoku = 9%nat ->
  Forall (fun row => List.length row = 9%nat) input_sudoku ->
  has_cells input_sudoku = true /\
  comprehension (fun rc => item_at input_sudoku (fst rc) (snd rc))
    (list_prod rows cols)
  = inr (List.concat input_sudoku).
Proof.
  intros Hlen Hrows.
  destruct (length9 _ Hlen) as (r0 & r1 & r2 & r3 & r4 & r5 & r6 & r7 & r8 & ->).
  repeat match goal with
         | H : Forall _ (_ :: _) |- _ =>
             let Hh := fresh "Hh" in
             let Ht := fresh "Ht" in
             inversion H as [|? ? Hh Ht]; subst; clear H;
             apply length9 in Hh;
             destruct Hh as (? & ? & ? & ? & ? & ? & ? & ? & ? & ->)
         end.
  split; vm_compute; reflexivity.
Qed.






(** ** What a call of [solve_sudoku] gives its caller *)

(** Printing a 9x9 grid never raises. *)
Lemma print_solution_9x9 (solution : Grid) (out : Stdout) :
  List.length solution = 9%nat ->
  Forall (fun row => List.length row = 9%nat) solution ->
  fst (print_solution solution rows cols out) = inr tt.
Proof.
  intros Hlen Hrows.
  destruct (length9 _ Hlen) as (r0 & r1 & r2 & r3 & r4 & r5 & r6 & r7 & r8 & ->).
  repeat match goal with
         | H : Forall _ (_ :: _) |- _ =>
             let Hh := fresh "Hh" in
             let Ht := fresh "Ht" in
             inversion H as [|? ? Hh Ht]; subst; clear H;
             apply length9 in Hh;
             destruct Hh as (? & ? & ? & ? & ? & ? & ? & ? & ? & ->)
         end.
  vm_compute. reflexivity.
Qed.

Lemma status_optimal (status : Z) (name : string) :
  dict_get LpStatus status = inr name ->
  String.eqb name "Optimal" = (status =? 1).
Proof.
  unfold LpStatus. cbn [dict_get].
  destruct (status =? 0) eqn:E0.
  { intros [= <-]. apply Z.eqb_eq in E0. now subst. }
  destruct (status =? 1) eqn:E1; [now intros [= <-]|].
  destruct (status =? -1) eqn:E2; [now intros [= <-]|].
  destruct (status =? -2) eqn:E3; [now intros [= <-]|].
  destruct (status =? -3) eqn:E4; [now intros [= <-]|].
  discriminate.
Qed.

(** C5, as stated, fails: with the status Optimal and the solved grid
    decoded, the caller still receives [None], and it receives the same
    [None] when the status is Infeasible or Undefined. *)
Lemma solve_sudoku_hands_back_nothing :
  extract_solution (assignment_of normal_solution) grid_vars rows cols values
  = inr normal_solution /\
  fst (solve_sudoku (fun _ => (1, assignment_of normal_solution))
         normal_sudoku false ""%string) = inr PyNone /\
  fst (solve_sudoku (fun _ => (-1, fun _ => 0)) normal_sudoku false ""%string)
  = inr PyNone /\
  fst (solve_sudoku (fun _ => (-3, fun _ => 0)) normal_sudoku false ""%string)
  = inr PyNone.
Proof.
  repeat split; vm_compute; reflexivity.
Qed.

(** C5, amended. On a board that has all its cells, with entries of
    absolute value at most [2 ^ 53], and with a status the
    table [LpStatus] knows, [solve_sudoku] raises nothing and returns [None]
    whatever the status.  It prints the line [Solution Status = ] followed
    by the name of the status, and the names of the statuses are pairwise
    distinct; when the status is Optimal, and only then, it decodes the
    grid and prints it after that line. *)
Theorem solve_sudoku_returns_none (solve : LpProblem -> Z * Assignment)
  (input_sudoku : Board) (diagonal : bool) (out : Stdout) (name : string) :
  has_cells input_sudoku = true ->
  entries_bounded input_sudoku = true ->
  let prob := snd (build_model input_sudoku diagonal
                     (new_LpProblem "Sudoku_Solver")) in
  let status := fst (solve prob) in
  let value_of := snd (solve prob) in
  let line := (out +++ ("Solution Status = " +++ name) +++ nl)%string in
  dict_get LpStatus status = inr name ->
  (name = "Optimal"%string <-> status = 1) /\
  NoDup (map snd LpStatus) /\
  if status =? 1
  then exists solution,
         extract_solution value_of grid_vars rows cols values = inr solution /\
         solve_sudoku solve input_sudoku diagonal out
         = (inr PyNone, snd (print_solution solution rows cols line))
  else solve_sudoku solve input_sudoku diagonal out = (inr PyNone, line).
Proof.
  intros Hcells _ prob status value_of line Hname.
  pose proof (status_optimal status name Hname) as Hopt.
  split; [|split].
  - rewrite <- String.eqb_eq, Hopt. apply Z.eqb_eq.
  - apply nodupb_sound. vm_compute. reflexivity.
  - assert (Hrun : forall r : result Returned * Stdout,
              match solve prob return result Returned * Stdout with
              | (status, value_of) =>
                  (solution_status <- lift (dict_get LpStatus status) ;;
                   shown <- lift (dict_get LpStatus status) ;;
                   print ("Solution Status = " +++ shown)%string nl ;;
                   if String.eqb solution_status "Optimal" then
                     solution <- lift (extract_solution value_of grid_vars
                                         rows cols values) ;;
                     print_solution solution rows cols ;;
                     ret PyNone
                   else ret PyNone) out
              end = r ->
              solve_sudoku solve input_sudoku diagonal out = r).
    { intros r <-. unfold solve_sudoku. subst prob.
      rewrite build_model_fresh, prefilled_outcome_cases, Hcells.
      reflexivity. }
    assert (Hpair : solve prob = (status, value_of))
      by (subst status value_of; now destruct (solve prob)).
    destruct (status =? 1) eqn:E1.
    + destruct (extract_solution_decode value_of) as [sol (E & Hl & Hr & _)].
      exists sol. split; [exact E|]. apply Hrun. rewrite Hpair.
      unfold bind at 1 2 3, lift, print. rewrite Hname, Hopt.
      unfold bind at 1. rewrite E.
      pose proof (print_solution_9x9 sol line Hl Hr) as Hprint.
      unfold bind, ret. fold line.
      destruct (print_solution sol rows cols line) as [[e|[]] out'];
        [discriminate | reflexivity].
    + apply Hrun. rewrite Hpair.
      unfold bind, lift, print, ret. rewrite Hname, Hopt. reflexivity.
Qed.

(** The board of the script, solved. *)
Lemma solve_sudoku_returns_none_witness :
  let solve := fun _ : LpProblem => (1, assignment_of normal_solution) in
  let line := (""%string +++ ("Solution Status = " +++ "Optimal") +++ nl)%string in
  ("Optimal"%string = "Optimal"%string <-> 1 = 1) /\
  NoDup (map snd LpStatus) /\
  exists solution,
    extract_solution (assignment_of normal_solution) grid_vars rows cols values
    = inr solution /\
    solve_sudoku solve normal_sudoku false ""%string
    = (inr PyNone, snd (print_solution solution rows cols line)).
Proof.
  apply (solve_sudoku_returns_none
           (fun _ : LpProblem => (1, assignment_of normal_solution))
           normal_sudoku false ""%string "Optimal"%string).
  - reflexivity.
  - vm_compute. reflexivity.
  - reflexivity.
Defined.

(** * Further properties of the program *)

(** ** More on the decoder *)

Lemma scan_range (value_of : Assignment) (var : Z -> Z -> Z -> LpVariable)
  (vs : list Z) (r c d : Z) :
  scan value_of var vs r c d = d \/ In (scan value_of var vs r c d) vs.
Proof.
  unfold scan. revert d. induction vs as [|v vs IH]; intros d; [now left|].
  cbn [fold_left]. destruct (IH (scan_step value_of var r c d v)) as [E|Hin].
  - rewrite E. unfold scan_step.
    destruct (truthy (value_of (var r c v))); [right; now left | now left].
  - right. now right.
Qed.

(** X1. Whatever the numbers the solver left in the variables,
    [extract_solution] raises nothing and returns a grid of 9 rows of 9
    entries, each of them 0 or a value of 1..9. *)
Theorem extract_solution_total (value_of : Assignment) :
  exists solution,
    extract_solution value_of grid_vars rows cols values = inr solution /\
    List.length solution = 9%nat /\
    Forall (fun row => List.length row = 9%nat) solution /\
    forall row col, In row rows -> In col cols ->
      exists x, item_at solution row col = inr x /\ (x = 0 \/ In x values).
Proof.
  destruct (extract_solution_decode value_of) as [sol (E & Hl & Hr & Hcell)].
  exists sol. repeat split; auto.
  intros r c Hr' Hc'. exists (decode value_of r c). split; [now apply Hcell|].
  apply scan_range.
Qed.

(** ** The model as a whole *)

Lemma model_of_families (input_sudoku : Board) (diagonal : bool) :
  model_of input_sudoku diagonal
  = default_family ++ (if diagonal then diagonal_family else [])
      ++ prefilled_family input_sudoku.
Proof. unfold model_of. now rewrite build_model_fresh. Qed.

Lemma groups_shape (group : list (Z * Z)) :
  In group groups ->
  List.length group = 9%nat /\
  forall rc, In rc group -> In (fst rc) rows /\ In (snd rc) cols.
Proof.
  unfold groups. repeat rewrite in_app_iff.
  intros [H|[H|[H|[<-|[<-|[]]]]]].
  - apply in_map_iff in H. destruct H as [r [<- Hr]]. split; [reflexivity|].
    intros rc Hrc. apply in_map_iff in Hrc. destruct Hrc as [c [<- Hc]].
    now split.
  - apply in_map_iff in H. destruct H as [c [<- Hc]]. split; [reflexivity|].
    intros rc Hrc. apply in_map_iff in Hrc. destruct Hrc as [r [<- Hr]].
    now split.
  - apply in_map_iff in H. destruct H as [g [<- Hg]]. split; [reflexivity|].
    intros rc Hrc. now apply (box_cells_on_board g).
  - split; [reflexivity|]. intros rc Hrc. apply diag_cells_on_board. now left.
  - split; [reflexivity|]. intros rc Hrc. apply diag_cells_on_board. now right.
Qed.

Lemma default_groups_are_groups (group : list (Z * Z)) :
  In group default_groups -> In group groups.
Proof.
  unfold default_groups, groups. repeat rewrite in_app_iff. tauto.
Qed.

(** The default constraints hold one constraint for every row, column and
    box and every value; the diagonal ones, one for each diagonal. *)
Lemma group_constraint_generated (group : list (Z * Z)) (value : Z) :
  In group default_groups -> In value values ->
  exists name, In (uniq_constraint group value name) default_family.
Proof.
  unfold default_groups, default_family. repeat rewrite in_app_iff.
  intros [H|[H|H]] Hv; apply in_map_iff in H; destruct H as [k [<- Hk]].
  - exists (cname (row_constraint (k, value))).
    apply in_or_app. right. apply in_or_app. left.
    apply (in_map row_constraint _ (k, value)). now apply in_prod.
  - exists (cname (col_constraint (k, value))).
    apply in_or_app. right. apply in_or_app. right. apply in_or_app. left.
    apply (in_map col_constraint _ (k, value)). now apply in_prod.
  - exists (cname (grid_constraint (k, value))).
    apply in_or_app. right. apply in_or_app. right. apply in_or_app. right.
    apply (in_map grid_constraint _ (k, value)). now apply in_prod.
Qed.

Lemma diagonal_constraint_generated (group : list (Z * Z)) (value : Z) :
  group = diag1_cells \/ group = diag2_cells -> In value values ->
  exists name, In (uniq_constraint group value name) diagonal_family.
Proof.
  unfold diagonal_family. intros [->| ->] Hv.
  - exists (cname (diag1_constraint value)). apply in_or_app. left.
    now apply (in_map diag1_constraint).
  - exists (cname (diag2_constraint value)). apply in_or_app. right.
    now apply (in_map diag2_constraint).
Qed.

(** A group whose constraints all hold, on cells that each hold one value,
    decodes to a permutation of the values. *)
Lemma decoded_group (a : Assignment) (solution : Grid)
  (family : list LpConstraint) (group : list (Z * Z)) :
  binary a ->
  (forall rc, In rc (list_prod rows cols) -> satisfied a (sum_constraint rc)) ->
  (forall c, In c family -> satisfied a c) ->
  (forall r c, In r rows -> In c cols ->
     item_at solution r c = inr (decode a r c)) ->
  In group groups ->
  (forall v, In v values ->
     exists name, In (uniq_constraint group v name) family) ->
  permutation_of_values solution group.
Proof.
  intros Ha Hcells Hfam Hread Hgroup Hgen.
  destruct (groups_shape group Hgroup) as [Hlen Hon].
  apply (group_is_permutation a); auto.
  intros v Hv. destruct (Hgen v Hv) as [name Hin].
  destruct (group_has_value a group v name Ha (values_nonzero v Hv)
              (Hfam _ Hin)) as [rc [Hrc H1]].
  exists rc. split; [exact Hrc|]. destruct (Hon rc Hrc) as [Hr Hc].
  apply one_hot_cell_holds; auto; [|lia].
  replace (fst rc, snd rc) with rc by now destruct rc.
  apply Hcells. destruct rc. now apply in_prod.
Qed.

Lemma get_constraint_some_in (cs : list LpConstraint) (n : string)
  (c : LpConstraint) :
  get_constraint cs n = Some c -> In c cs.
Proof.
  induction cs as [|c0 cs IH]; cbn; [discriminate|].
  destruct (String.eqb (cname c0) n).
  - intros [= <-]. now left.
  - intros H. right. now apply IH.
Qed.

Lemma prefilled_names_distinct : NoDup (map prefilled_name (list_prod rows cols)).
Proof.
  pose proof model_names_distinct as H. unfold model_names in H.
  now do 2 apply NoDup_app_remove_l in H.
Qed.

(** The prefilled constraint of a given cell is in the model. *)
Lemma prefilled_in_family (input_sudoku : Board) (r c p : Z) :
  has_cells input_sudoku = true -> In r rows -> In c cols ->
  item_at input_sudoku r c = inr p -> p <> 0 ->
  In (prefilled_constraint (r, c) p) (prefilled_family input_sudoku).
Proof.
  intros Hcells Hr Hc Hp Hnz.
  apply (get_constraint_some_in _ (prefilled_name (r, c))).
  apply run_trace_lookup; auto.
  - apply prefilled_names_distinct.
  - now apply in_prod.
Qed.

(** The cell constraint and the prefilled constraint of a cell leave it one
    value only. *)
Lemma given_is_pinned (a : Assignment) (r c p : Z) :
  binary a ->
  satisfied a (sum_constraint (r, c)) ->
  satisfied a (prefilled_constraint (r, c) p) ->
  In p values /\ a (the_var r c p) = 1 /\ decode a r c = p.
Proof.
  intros Ha Hsum Hpre.
  destruct (one_hot_cell a r c Ha Hsum)
    as (l1 & v & l2 & Hsplit & Hv & H1 & H2 & Hd).
  assert (E : v = p).
  { unfold satisfied in Hpre. cbn [csense crhs prefilled_constraint] in Hpre.
    change (cexpr _) with (cexpr (prefilled_constraint (r, c) p)) in Hpre.
    now rewrite (prefilled_constraint_eval a r c p l1 l2 v) in Hpre. }
  rewrite E in Hsplit, Hv, Hd. split; [|split; [exact Hv | exact Hd]].
  rewrite Hsplit. apply in_or_app. right. now left.
Qed.

Section Solution.

Variable input_sudoku : Board.
Variable diagonal : bool.
Variable value_of : Assignment.

Hypothesis board_has_cells : has_cells input_sudoku = true.
Hypothesis value_of_binary : binary value_of.
Hypothesis model_holds :
  forall c, In c (model_of input_sudoku diagonal) -> satisfied value_of c.

Lemma default_family_holds (c : LpConstraint) :
  In c default_family -> satisfied value_of c.
Proof.
  intros H. apply model_holds. rewrite model_of_families.
  apply in_or_app. now left.
Qed.

Lemma cells_hold_one_value (rc : Z * Z) :
  In rc (list_prod rows cols) -> satisfied value_of (sum_constraint rc).
Proof.
  intros H. apply default_family_holds. unfold default_family.
  apply in_or_app. left. now apply in_map.
Qed.

Lemma given_holds (r c p : Z) :
  In r rows -> In c cols -> item_at input_sudoku r c = inr p -> p <> 0 ->
  In p values /\ value_of (the_var r c p) = 1 /\ decode value_of r c = p.
Proof.
  intros Hr Hc Hp Hnz. apply given_is_pinned; [exact value_of_binary | | ].
  - apply cells_hold_one_value. now apply in_prod.
  - apply model_holds. rewrite model_of_families.
    apply in_or_app. right. apply in_or_app. right.
    now apply prefilled_in_family.
Qed.

End Solution.

(** X2. End to end: from any binary assignment that satisfies the model of a
    board, [extract_solution] returns a grid whose rows, columns and boxes
    are permutations of 1..9, whose diagonals are too when the diagonal flag
    was set, and which holds every given of the board at its place. *)
Theorem solved_model_decodes (input_sudoku : Board) (diagonal : bool)
  (value_of : Assignment) :
  has_cells input_sudoku = true ->
  binary value_of ->
  (forall c, In c (model_of input_sudoku diagonal) -> satisfied value_of c) ->
  exists solution,
    extract_solution value_of grid_vars rows cols values = inr solution /\
    (forall group, In group default_groups ->
       permutation_of_values solution group) /\
    (diagonal = true ->
       permutation_of_values solution diag1_cells /\
       permutation_of_values solution diag2_cells) /\
    (forall row col p, In row rows -> In col cols ->
       item_at input_sudoku row col = inr p -> p <> 0 ->
       item_at solution row col = inr p).
Proof.
  intros Hcells Ha Hmodel.
  destruct (extract_solution_decode value_of) as [sol (E & _ & _ & Hread)].
  pose proof (cells_hold_one_value input_sudoku diagonal value_of Hmodel) as Hone.
  exists sol. split; [exact E|]. split; [|split].
  - intros group Hg.
    apply (decoded_group value_of sol default_family group Ha Hone).
    + apply (default_family_holds input_sudoku diagonal value_of Hmodel).
    + exact Hread.
    + now apply default_groups_are_groups.
    + intros v Hv. now apply group_constraint_generated.
  - intros ->.
    assert (Hdiag : forall c, In c diagonal_family -> satisfied value_of c).
    { intros c Hc. apply Hmodel. rewrite model_of_families.
      apply in_or_app. right. apply in_or_app. now left. }
    split.
    + apply (decoded_group value_of sol diagonal_family diag1_cells Ha Hone
               Hdiag Hread).
      * unfold groups. repeat rewrite in_app_iff. right. right. right. now left.
      * intros v Hv. apply diagonal_constraint_generated; [now left | exact Hv].
    + apply (decoded_group value_of sol diagonal_family diag2_cells Ha Hone
               Hdiag Hread).
      * unfold groups. repeat rewrite in_app_iff. right. right. right.
        right. now left.
      * intros v Hv. apply diagonal_constraint_generated; [now right | exact Hv].
  - intros r c p Hr Hc Hp Hnz. rewrite (Hread r c Hr Hc). f_equal.
    now apply (given_holds input_sudoku diagonal value_of Hcells Ha Hmodel r c p).
Qed.

Lemma solved_model_decodes_witness :
  exists solution,
    extract_solution (assignment_of normal_solution) grid_vars rows cols values
    = inr solution /\
    (forall group, In group default_groups ->
       permutation_of_values solution group) /\
    (false = true ->
       permutation_of_values solution diag1_cells /\
       permutation_of_values solution diag2_cells) /\
    (forall row col p, In row rows -> In col cols ->
       item_at normal_sudoku row col = inr p -> p <> 0 ->
       item_at solution row col = inr p).
Proof.
  apply (solved_model_decodes normal_sudoku false (assignment_of normal_solution)).
  - reflexivity.
  - apply assignment_of_binary.
  - apply all_satisfied. vm_compute. reflexivity.
Defined.



(** X4. On a board whose entries are of absolute value at most [2 ^ 53],
    an entry that is neither 0 nor a value of 1..9 is not refused: it is
    given a prefilled constraint like any other, and this constraint
    makes the model one that no binary assignment satisfies. *)
Theorem invalid_given_infeasible (input_sudoku : Board) (diagonal : bool)
  (row col p : Z) (value_of : Assignment) :
  has_cells input_sudoku = true ->
  entries_bounded input_sudoku = true ->
  In row rows -> In col cols ->
  item_at input_sudoku row col = inr p -> p <> 0 -> ~ In p values ->
  binary value_of ->
  In (prefilled_constraint (row, col) p) (model_of input_sudoku diagonal) /\
  ~ (forall c, In c (model_of input_sudoku diagonal) -> satisfied value_of c).
Proof.
  intros Hcells _ Hr Hc Hp Hnz Hout Ha. split.
  - rewrite model_of_families. apply in_or_app. right. apply in_or_app. right.
    now apply prefilled_in_family.
  - intros Hmodel. apply Hout.
    now destruct (given_holds input_sudoku diagonal value_of Hcells Ha Hmodel
                    row col p Hr Hc Hp Hnz).
Qed.

Lemma invalid_given_infeasible_witness :
  In (prefilled_constraint (0, 0) 12) (model_of board_with_12 true) /\
  ~ (forall c, In c (model_of board_with_12 true) -> satisfied (fun _ => 0) c).
Proof.
  apply (invalid_given_infeasible board_with_12 true 0 0 12 (fun _ => 0)).
  - reflexivity.
  - vm_compute. reflexivity.
  - apply in_range. lia.
  - apply in_range. lia.
  - reflexivity.
  - lia.
  - intros H. apply in_range in H. lia.
  - intros x. now left.
Defined.

(** ** Names in the model *)

Lemma run_trace_names_distinct (input_sudoku : Board) (xs : list (Z * Z)) :
  NoDup (map prefilled_name xs) ->
  NoDup (names (snd (run_trace (prefilled_turn input_sudoku) xs))).
Proof.
  induction xs as [|rc xs IH]; intros Hnd; [constructor|].
  cbn [map] in Hnd. inversion Hnd as [|? ? Hfresh Hrest]; subst.
  pose proof (run_trace_names input_sudoku xs) as Hsub.
  specialize (IH Hrest). cbn [run_trace]. unfold prefilled_turn in IH, Hsub |- *.
  destruct (item_at input_sudoku (fst rc) (snd rc)) as [e|p]; [constructor|].
  destruct (p =? 0); cbn [fst snd app names map prefilled_constraint cname].
  - exact IH.
  - constructor; [|exact IH]. intros Hin. apply Hfresh. now apply Hsub.
Qed.

(** X5. No [addConstraint] call of the builders meets a name that an
    earlier call used: whatever the board and the flag, the build never
    ends with PuLP's error on overlapping names, every constraint the
    default builder generates, and every one the diagonal builder generates
    when the flag is set, is in the model, no two constraints of the model
    bear the same name, and looking a constraint up by its name gives that
    constraint back. *)
Theorem model_names_unique (input_sudoku : Board) (diagonal : bool) :
  (forall msg,
     fst (build_model input_sudoku diagonal (new_LpProblem "Sudoku_Solver"))
     <> inl (PulpError msg)) /\
  (forall c, In c default_constraints ->
     In c (model_of input_sudoku diagonal)) /\
  (diagonal = true ->
   forall c, In c diagonal_constraints ->
     In c (model_of input_sudoku diagonal)) /\
  NoDup (names (model_of input_sudoku diagonal)) /\
  forall c, In c (model_of input_sudoku diagonal) ->
    get_constraint (model_of input_sudoku diagonal) (cname c) = Some c.
Proof.
  assert (Hnd : NoDup (names (model_of input_sudoku diagonal))).
  { rewrite model_of_families. unfold names. rewrite !map_app.
    pose proof model_names_distinct as H. unfold model_names, names in H.
    apply NoDup_app.
    - now apply NoDup_app_remove_r in H.
    - apply NoDup_app.
      + destruct diagonal; [|constructor].
        apply NoDup_app_remove_l in H. now apply NoDup_app_remove_r in H.
      + apply run_trace_names_distinct, prefilled_names_distinct.
      + intros n Hn Hin. destruct diagonal; [|contradiction].
        apply NoDup_app_remove_l in H.
        apply (NoDup_disjoint _ _ H n Hn).
        now apply (run_trace_names input_sudoku).
    - intros n Hn Hin. apply (NoDup_disjoint _ _ H n Hn).
      apply in_app_or in Hin. destruct Hin as [Hin|Hin].
      + destruct diagonal; [|contradiction]. apply in_or_app. now left.
      + apply in_or_app. right. now apply (run_trace_names input_sudoku). }
  split; [|split; [|split; [|split]]].
  - intros msg. rewrite build_model_fresh, prefilled_outcome_cases.
    cbn [fst]. destruct (has_cells input_sudoku); discriminate.
  - intros c Hc. rewrite model_of_families. apply in_or_app. left.
    rewrite <- default_constraints_family. exact Hc.
  - intros -> c Hc. rewrite model_of_families. apply in_or_app. right.
    apply in_or_app. left. rewrite <- diagonal_constraints_family. exact Hc.
  - exact Hnd.
  - intros c Hc. apply get_constraint_in; [exact Hnd | exact Hc].
Qed.

(** ** A board that lacks a cell *)

(** X6. On a board that lacks a cell, and whose entries are of absolute
    value at most [2 ^ 53], [solve_sudoku] ends with [IndexError]
    before anything is printed, whatever the solver would have answered. *)
Theorem solve_sudoku_missing_cell (solve : LpProblem -> Z * Assignment)
  (input_sudoku : Board) (diagonal : bool) (out : Stdout) :
  has_cells input_sudoku = false ->
  entries_bounded input_sudoku = true ->
  solve_sudoku solve input_sudoku diagonal out = (inl IndexError, out).
Proof.
  intros H _. unfold solve_sudoku.
  now rewrite build_model_fresh, prefilled_outcome_cases, H.
Qed.

(** A board of eight rows. *)
Lemma solve_sudoku_missing_cell_witness :
  solve_sudoku (fun _ => (1, fun _ => 1)) (repeat (repeat 0 9%nat) 8%nat)
    true "earlier output"%string
  = (inl IndexError, "earlier output"%string).
Proof.
  apply (solve_sudoku_missing_cell (fun _ => (1, fun _ => 1))
           (repeat (repeat 0 9%nat) 8%nat) true "earlier output"%string).
  - reflexivity.
  - vm_compute. reflexivity.
Defined.

(** ** The assignment of a filled grid *)

Lemma NoDup_map_inj {A B : Type} (f : A -> B) (l : list A) (x y : A) :
  NoDup (map f l) -> In x l -> In y l -> f x = f y -> x = y.
Proof.
  induction l as [|a l IH]; intros Hnd Hx Hy E; [contradiction|].
  cbn [map] in Hnd. inversion Hnd as [|? ? Hfresh Hrest]; subst.
  destruct Hx as [->|Hx], Hy as [->|Hy]; auto.
  - exfalso. apply Hfresh. rewrite E. now apply in_map.
  - exfalso. apply Hfresh. rewrite <- E. now apply in_map.
Qed.

Lemma var_names_distinct : NoDup (map vname all_vars).
Proof. apply nodupb_sound. vm_compute. reflexivity. Qed.

(** Variables of different cells or values bear different names. *)
Lemma the_var_injective (r c v r' c' v' : Z) :
  In r rows -> In c cols -> In v values ->
  In r' rows -> In c' cols -> In v' values ->
  vname (the_var r c v) = vname (the_var r' c' v') ->
  r = r' /\ c = c' /\ v = v'.
Proof.
  intros Hr Hc Hv Hr' Hc' Hv' E.
  pose proof var_names_distinct as Hnd.
  rewrite all_vars_the_var, map_map in Hnd.
  assert (H : (r, c, v) = (r', c', v')).
  { apply (NoDup_map_inj _ _ _ _ Hnd).
    - apply in_prod; [now apply in_prod | exact Hv].
    - apply in_prod; [now apply in_prod | exact Hv'].
    - exact E. }
  now injection H.
Qed.

(** In the assignment of a grid with entries in 1..9, the variable of
    [(r, c, v)] is 1 when the grid holds [v] at [(r, c)] and 0 otherwise. *)
Lemma assignment_of_reads (g : Grid) (r c v w : Z) :
  (forall r' c' w', In r' rows -> In c' cols ->
     item_at g r' c' = inr w' -> In w' values) ->
  In r rows -> In c cols -> In v values ->
  item_at g r c = inr w ->
  assignment_of g (the_var r c v) = if w =? v then 1 else 0.
Proof.
  intros Hentries Hr Hc Hv Hw. unfold assignment_of. cbv zeta.
  destruct (existsb _ _) eqn:E.
  - apply existsb_exists in E. destruct E as [n [Hn En]].
    apply String.eqb_eq in En. unfold true_names in Hn.
    apply in_flat_map in Hn. destruct Hn as [[r' c'] [Hrc Hin]].
    apply in_prod_iff in Hrc. destruct Hrc as [Hr' Hc']. cbn [fst snd] in Hin.
    destruct (item_at g r' c') as [e|w'] eqn:Ew'; [contradiction|].
    destruct Hin as [<-|[]].
    destruct (the_var_injective r c v r' c' w' Hr Hc Hv Hr' Hc'
                (Hentries r' c' w' Hr' Hc' Ew') En) as (-> & -> & ->).
    rewrite Hw in Ew'. injection Ew' as ->. now rewrite Z.eqb_refl.
  - destruct (w =? v) eqn:Ewv; [|reflexivity].
    apply Z.eqb_eq in Ewv. subst w. exfalso.
    assert (T : existsb (String.eqb (vname (the_var r c v))) (true_names g) = true).
    { apply existsb_exists. exists (vname (the_var r c v)).
      split; [|apply String.eqb_refl]. unfold true_names.
      apply in_flat_map. exists (r, c). split; [now apply in_prod|].
      cbn [fst snd]. rewrite Hw. now left. }
    congruence.
Qed.

Lemma comprehension_in {A B : Type} (f : A -> result B) (xs : list A)
  (l : list B) (x : A) :
  comprehension f xs = inr l -> In x xs -> exists y, f x = inr y /\ In y l.
Proof.
  revert l. induction xs as [|x0 xs IH]; intros l H Hx; [contradiction|].
  cbn [comprehension] in H. destruct (f x0) as [e|y0] eqn:E0; [discriminate|].
  cbn [rbind] in H.
  destruct (comprehension f xs) as [e|l'] eqn:E; [discriminate|].
  cbn [rbind] in H. injection H as <-.
  destruct Hx as [->|Hx].
  - exists y0. split; [exact E0 | now left].
  - destruct (IH l' eq_refl Hx) as [y [Hy Hin]].
    exists y. split; [exact Hy | now right].
Qed.

(** The entries of a valid grid are values. *)
Lemma valid_sudoku_entries (g : Grid) (diagonal : bool) (r c w : Z) :
  valid_sudoku g diagonal -> In r rows -> In c cols ->
  item_at g r c = inr w -> In w values.
Proof.
  intros (_ & _ & Hgroups & _) Hr Hc Hw.
  destruct (Hgroups (row_cells r)) as [l [Hl Hperm]].
  { unfold default_groups. apply in_or_app. left. now apply in_map. }
  destruct (comprehension_in _ _ _ (r, c) Hl) as [y [Hy Hin]].
  { now apply (in_map (fun col => (r, col))). }
  cbn [fst snd] in Hy. rewrite Hw in Hy. injection Hy as <-.
  now apply (Permutation_in _ Hperm).
Qed.

Lemma valid_sudoku_cell (g : Grid) (diagonal : bool) (r c : Z) :
  valid_sudoku g diagonal -> In r rows -> In c cols ->
  exists w, item_at g r c = inr w /\ In w values.
Proof.
  intros Hvalid Hr Hc. pose proof Hvalid as (_ & _ & Hgroups & _).
  destruct (Hgroups (row_cells r)) as [l [Hl Hperm]].
  { unfold default_groups. apply in_or_app. left. now apply in_map. }
  destruct (comprehension_in _ _ _ (r, c) Hl) as [y [Hy Hin]].
  { now apply (in_map (fun col => (r, col))). }
  exists y. split; [exact Hy|]. now apply (Permutation_in _ Hperm).
Qed.

Lemma total_app (a : Assignment) (l1 l2 : list LpVariable) :
  total a (l1 ++ l2) = total a l1 + total a l2.
Proof.
  unfold total. induction l1 as [|x l1 IH]; cbn [app fold_right]; lia.
Qed.

Lemma total_all_zero {K : Type} (a : Assignment) (f : K -> LpVariable)
  (ks : list K) :
  (forall k, In k ks -> a (f k) = 0) -> total a (map f ks) = 0.
Proof.
  unfold total. induction ks as [|k ks IH]; intros H; [reflexivity|].
  cbn [map fold_right]. rewrite (H k) by now left.
  rewrite IH; [lia|]. intros k' Hk'. apply H. now right.
Qed.

Section FilledGrid.

Variable g : Grid.
Variable diagonal : bool.
Hypothesis g_valid : valid_sudoku g diagonal.

Lemma filled_reads (r c v w : Z) :
  In r rows -> In c cols -> In v values -> item_at g r c = inr w ->
  assignment_of g (the_var r c v) = if w =? v then 1 else 0.
Proof.
  apply assignment_of_reads. intros r' c' w'.
  apply (valid_sudoku_entries g diagonal r' c' w' g_valid).
Qed.

(** The values split around the entry of a cell, whose variable alone is
    at 1. *)
Lemma filled_cell_split (r c w : Z) :
  In r rows -> In c cols -> item_at g r c = inr w ->
  exists l1 l2,
    values = l1 ++ w :: l2 /\ assignment_of g (the_var r c w) = 1 /\
    (forall v, In v l1 -> assignment_of g (the_var r c v) = 0) /\
    (forall v, In v l2 -> assignment_of g (the_var r c v) = 0).
Proof.
  intros Hr Hc Hw.
  pose proof (valid_sudoku_entries g diagonal r c w g_valid Hr Hc Hw) as Hin.
  destruct (in_split w values Hin) as (l1 & l2 & Hsplit).
  pose proof (NoDup_range 1 10) as Hnd. change (range 1 10) with values in Hnd.
  rewrite Hsplit in Hnd. apply NoDup_remove_2 in Hnd.
  assert (Hother : forall v, In v (l1 ++ l2) ->
                     assignment_of g (the_var r c v) = 0).
  { intros v Hv. rewrite (filled_reads r c v w Hr Hc); auto.
    - destruct (w =? v) eqn:E; [|reflexivity].
      apply Z.eqb_eq in E. subst v. contradiction.
    - rewrite Hsplit. apply in_app_or in Hv. apply in_or_app.
      destruct Hv; [now left | right; now right]. }
  exists l1, l2. split; [exact Hsplit|]. split; [|split].
  - rewrite (filled_reads r c w w Hr Hc Hin Hw). now rewrite Z.eqb_refl.
  - intros v Hv. apply Hother. apply in_or_app. now left.
  - intros v Hv. apply Hother. apply in_or_app. now right.
Qed.

Lemma filled_cell_constraint (rc : Z * Z) :
  In rc (list_prod rows cols) ->
  satisfied (assignment_of g) (sum_constraint rc).
Proof.
  destruct rc as [r c]. intros Hrc. apply in_prod_iff in Hrc.
  destruct Hrc as [Hr Hc].
  destruct (valid_sudoku_cell g diagonal r c g_valid Hr Hc) as [w [Hw _]].
  destruct (filled_cell_split r c w Hr Hc Hw) as (l1 & l2 & Hsplit & H1 & Hz1 & Hz2).
  unfold satisfied. cbn [csense crhs sum_constraint].
  change (cexpr _) with (cexpr (sum_constraint (r, c))).
  rewrite sum_constraint_total. cbn [fst snd].
  rewrite Hsplit, map_app, total_app. cbn [map].
  change (total (assignment_of g) (the_var r c w :: map (the_var r c) l2))
    with (assignment_of g (the_var r c w)
          + total (assignment_of g) (map (the_var r c) l2)).
  rewrite H1, (total_all_zero _ _ l1 Hz1), (total_all_zero _ _ l2 Hz2). lia.
Qed.

Lemma filled_decode (r c w : Z) :
  In r rows -> In c cols -> item_at g r c = inr w ->
  decode (assignment_of g) r c = w.
Proof.
  intros Hr Hc Hw.
  destruct (filled_cell_split r c w Hr Hc Hw) as (l1 & l2 & Hsplit & H1 & _ & Hz2).
  unfold decode. apply (scan_last_true _ _ _ _ _ _ l1 l2 w Hsplit); [lia|exact Hz2].
Qed.

(** Over a group, the variables of a value add up to the number of cells
    that hold it. *)
Lemma filled_group_total (group : list (Z * Z)) (l : list Z) (v : Z) :
  (forall rc, In rc group -> In (fst rc) rows /\ In (snd rc) cols) ->
  In v values ->
  group_values g group = inr l ->
  total (assignment_of g) (group_vars group v)
  = Z.of_nat (count_occ Z.eq_dec l v).
Proof.
  intros Hon Hv. revert l.
  induction group as [|rc group IH]; intros l Hl.
  - injection Hl as <-. reflexivity.
  - unfold group_values in Hl. cbn [comprehension] in Hl.
    destruct (item_at g (fst rc) (snd rc)) as [e|w] eqn:Ew; [discriminate|].
    cbn [rbind] in Hl.
    destruct (comprehension _ group) as [e|l'] eqn:E; [discriminate|].
    cbn [rbind] in Hl. injection Hl as <-.
    destruct (Hon rc (or_introl eq_refl)) as [Hr Hc].
    unfold group_vars. cbn [map].
    change (total (assignment_of g) (?x :: ?xs))
      with (assignment_of g x + total (assignment_of g) xs).
    rewrite (filled_reads _ _ v w Hr Hc Hv Ew).
    fold (group_vars group v).
    rewrite (IH (fun rc' H => Hon rc' (or_intror H)) l' E).
    cbn [count_occ]. destruct (Z.eq_dec w v) as [->|Hne].
    + rewrite Z.eqb_refl. lia.
    + apply Z.eqb_neq in Hne. rewrite Hne. lia.
Qed.

Lemma filled_group_constraint (group : list (Z * Z)) (v : Z) (name : string) :
  In group groups -> permutation_of_values g group -> In v values ->
  satisfied (assignment_of g) (uniq_constraint group v name).
Proof.
  intros Hg [l [Hl Hperm]] Hv.
  destruct (groups_shape group Hg) as [_ Hon].
  unfold satisfied. cbn [csense crhs uniq_constraint].
  change (cexpr _) with (cexpr (uniq_constraint group v name)).
  rewrite uniq_constraint_total, (filled_group_total group l v Hon Hv Hl).
  assert (E : count_occ Z.eq_dec l v = 1%nat).
  { rewrite (proj1 (Permutation_count_occ Z.eq_dec l values) Hperm v).
    apply (proj1 (NoDup_count_occ' Z.eq_dec values)); [|exact Hv].
    apply NoDup_range. }
  rewrite E. lia.
Qed.

End FilledGrid.

(** What the default and the diagonal builders generate, sorted by kind. *)
Lemma default_family_kinds (c : LpConstraint) :
  In c default_family ->
  (exists rc, In rc (list_prod rows cols) /\ c = sum_constraint rc) \/
  (exists group v name,
     In group default_groups /\ In v values /\ c = uniq_constraint group v name).
Proof.
  unfold default_family, default_groups. repeat rewrite in_app_iff.
  intros [H|[H|[H|H]]]; apply in_map_iff in H; destruct H as [[k v] [<- Hkv]].
  - left. exists (k, v). now split.
  - right. apply in_prod_iff in Hkv. destruct Hkv as [Hk Hv].
    exists (row_cells k), v, (cname (row_constraint (k, v))).
    split; [|now split]. apply in_or_app. left. now apply in_map.
  - right. apply in_prod_iff in Hkv. destruct Hkv as [Hk Hv].
    exists (col_cells k), v, (cname (col_constraint (k, v))).
    split; [|now split]. apply in_or_app. right. apply in_or_app. left.
    now apply in_map.
  - right. apply in_prod_iff in Hkv. destruct Hkv as [Hk Hv].
    exists (box_cells k), v, (cname (grid_constraint (k, v))).
    split; [|now split]. apply in_or_app. right. apply in_or_app. right.
    now apply in_map.
Qed.

Lemma diagonal_family_kinds (c : LpConstraint) :
  In c diagonal_family ->
  exists group v name,
    (group = diag1_cells \/ group = diag2_cells) /\ In v values /\
    c = uniq_constraint group v name.
Proof.
  unfold diagonal_family. rewrite in_app_iff.
  intros [H|H]; apply in_map_iff in H; destruct H as [v [<- Hv]].
  - exists diag1_cells, v, (cname (diag1_constraint v)). split; [now left|].
    now split.
  - exists diag2_cells, v, (cname (diag2_constraint v)). split; [now right|].
    now split.
Qed.

(** A prefilled constraint of the model is that of a cell of the board that
    is not 0. *)
Lemma run_trace_givens (input_sudoku : Board) (xs : list (Z * Z))
  (c : LpConstraint) :
  In c (snd (run_trace (prefilled_turn input_sudoku) xs)) ->
  exists rc p, In rc xs /\
    item_at input_sudoku (fst rc) (snd rc) = inr p /\ p <> 0 /\
    c = prefilled_constraint rc p.
Proof.
  induction xs as [|rc xs IH]; [intros []|].
  cbn [run_trace]. unfold prefilled_turn in IH |- *.
  destruct (item_at input_sudoku (fst rc) (snd rc)) as [e|p] eqn:Ep;
    [intros []|].
  destruct (p =? 0) eqn:Ez; cbn [fst snd app In].
  - intros H. destruct (IH H) as (rc' & p' & Hin & Hrest).
    exists rc', p'. split; [now right | exact Hrest].
  - intros [<-|H].
    + exists rc, p. split; [now left|]. split; [exact Ep|].
      split; [now apply Z.eqb_neq | reflexivity].
    + destruct (IH H) as (rc' & p' & Hin & Hrest).
      exists rc', p'. split; [now right | exact Hrest].
Qed.

Lemma comprehension_ext {A B : Type} (f f' : A -> result B) (xs : list A) :
  (forall x, In x xs -> f x = f' x) -> comprehension f xs = comprehension f' xs.
Proof.
  induction xs as [|x xs IH]; intros H; [reflexivity|].
  cbn [comprehension]. rewrite (H x) by now left.
  rewrite IH; [reflexivity|]. intros y Hy. apply H. now right.
Qed.

(** Two 9x9 grids that hold the same entry at every cell are the same. *)
Lemma grid_ext (g1 g2 : Grid) :
  List.length g1 = 9%nat -> Forall (fun row => List.length row = 9%nat) g1 ->
  List.length g2 = 9%nat -> Forall (fun row => List.length row = 9%nat) g2 ->
  (forall r c, In r rows -> In c cols -> item_at g1 r c = item_at g2 r c) ->
  g1 = g2.
Proof.
  intros Hl1 Hr1 Hl2 Hr2 Hsame.
  destruct (board_9x9_cells g1 Hl1 Hr1) as [_ E1].
  destruct (board_9x9_cells g2 Hl2 Hr2) as [_ E2].
  rewrite (comprehension_ext _ (fun rc => item_at g2 (fst rc) (snd rc))) in E1.
  2:{ intros [r c] Hrc. apply in_prod_iff in Hrc. now apply Hsame. }
  rewrite E2 in E1. injection E1 as E. clear E2 Hsame.
  destruct (length9 _ Hl1) as (a0 & a1 & a2 & a3 & a4 & a5 & a6 & a7 & a8 & ->).
  destruct (length9 _ Hl2) as (b0 & b1 & b2 & b3 & b4 & b5 & b6 & b7 & b8 & ->).
  repeat match goal with
         | H : Forall _ (_ :: _) |- _ =>
             let Hh := fresh "Hh" in
             let Ht := fresh "Ht" in
             inversion H as [|? ? Hh Ht]; subst; clear H;
             apply length9 in Hh;
             destruct Hh as (? & ? & ? & ? & ? & ? & ? & ? & ? & ->)
         end.
  cbn [List.concat app] in E. congruence.
Qed.

(** X7. A filled grid comes back from its own assignment: for a valid 9x9
    grid, the one-hot assignment of the grid is binary and
    [extract_solution] decodes it to that very grid. *)
Theorem extract_solution_round_trip (g : Grid) (diagonal : bool) :
  valid_sudoku g diagonal ->
  binary (assignment_of g) /\
  extract_solution (assignment_of g) grid_vars rows cols values = inr g.
Proof.
  intros Hvalid. split; [apply assignment_of_binary|].
  destruct (extract_solution_decode (assignment_of g))
    as [sol (E & Hl & Hr & Hread)].
  rewrite E. f_equal. pose proof Hvalid as (Hgl & Hgr & _).
  apply grid_ext; auto.
  intros r c Hr' Hc'. rewrite (Hread r c Hr' Hc').
  destruct (valid_sudoku_cell g diagonal r c Hvalid Hr' Hc') as [w [Hw _]].
  rewrite Hw. f_equal. now apply (filled_decode g diagonal Hvalid).
Qed.

(** X8. The model excludes no solution of the puzzle: the assignment of a
    valid grid that holds the givens of the board satisfies every
    constraint of the model of that board. *)
Theorem every_solution_is_feasible (input_sudoku : Board) (diagonal : bool)
  (g : Grid) :
  valid_sudoku g diagonal -> agrees_with input_sudoku g ->
  forall c, In c (model_of input_sudoku diagonal) ->
    satisfied (assignment_of g) c.
Proof.
  intros Hvalid Hagree c Hc. rewrite model_of_families in Hc.
  pose proof Hvalid as (_ & _ & Hgroups & Hdiag).
  apply in_app_or in Hc. destruct Hc as [Hc|Hc].
  - destruct (default_family_kinds c Hc)
      as [[rc [Hrc ->]]|(group & v & name & Hg & Hv & ->)].
    + now apply (filled_cell_constraint g diagonal Hvalid).
    + apply (filled_group_constraint g diagonal Hvalid); auto.
      now apply default_groups_are_groups.
  - apply in_app_or in Hc. destruct Hc as [Hc|Hc].
    + destruct diagonal; [|contradiction].
      destruct (diagonal_family_kinds c Hc) as (group & v & name & Hg & Hv & ->).
      destruct (Hdiag eq_refl) as [Hd1 Hd2].
      apply (filled_group_constraint g true Hvalid); auto.
      * unfold groups. repeat rewrite in_app_iff.
        destruct Hg as [->| ->]; right; right; right; [now left | right; now left].
      * now destruct Hg as [->| ->].
    + unfold prefilled_family in Hc. apply run_trace_givens in Hc.
      destruct Hc as ([r k] & p & Hrc & Hp & Hnz & ->).
      apply in_prod_iff in Hrc. destruct Hrc as [Hr Hk]. cbn [fst snd] in Hp.
      pose proof (Hagree r k p Hr Hk Hp Hnz) as Hg.
      destruct (filled_cell_split g diagonal Hvalid r k p Hr Hk Hg)
        as (l1 & l2 & Hsplit & H1 & Hz1 & Hz2).
      unfold satisfied. cbn [csense crhs prefilled_constraint].
      change (cexpr _) with (cexpr (prefilled_constraint (r, k) p)).
      apply (prefilled_constraint_eval _ r k p l1 l2 p Hsplit H1 Hz1 Hz2).
Qed.

Lemma same_values_sound (l : list Z) :
  same_values l = true -> Permutation l values.
Proof.
  unfold same_values. intros H. rewrite forallb_forall in H.
  apply (Permutation_count_occ Z.eq_dec). intros x.
  destruct (in_dec Z.eq_dec x (l ++ values)) as [Hin|Hout].
  - now apply Nat.eqb_eq, H.
  - rewrite (proj1 (count_occ_not_In Z.eq_dec l x)).
    + symmetry. apply count_occ_not_In. intros Hx. apply Hout, in_or_app.
      now right.
    + intros Hx. apply Hout, in_or_app. now left.
Qed.

Lemma permutation_of_valuesb_sound (solution : Grid) (group : list (Z * Z)) :
  permutation_of_valuesb solution group = true ->
  permutation_of_values solution group.
Proof.
  unfold permutation_of_valuesb, permutation_of_values.
  destruct (group_values solution group) as [e|l]; [discriminate|].
  intros H. exists l. split; [reflexivity | now apply same_values_sound].
Qed.

Lemma is_9x9_sound (solution : Grid) :
  is_9x9 solution = true ->
  List.length solution = 9%nat /\
  Forall (fun row => List.length row = 9%nat) solution.
Proof.
  unfold is_9x9. intros H. apply andb_prop in H. destruct H as [Hl Hr].
  split; [now apply Nat.eqb_eq|]. apply Forall_forall. intros row Hrow.
  rewrite forallb_forall in Hr. now apply Nat.eqb_eq, Hr.
Qed.

Lemma valid_sudokub_sound (solution : Grid) (diagonal : bool) :
  valid_sudokub solution diagonal = true -> valid_sudoku solution diagonal.
Proof.
  unfold valid_sudokub, valid_sudoku. intros H.
  apply andb_prop in H. destruct H as [H Hd].
  apply andb_prop in H. destruct H as [H9 Hg].
  apply is_9x9_sound in H9. destruct H9 as [Hl Hr].
  split; [exact Hl|]. split; [exact Hr|]. split.
  - intros group Hin. rewrite forallb_forall in Hg.
    now apply permutation_of_valuesb_sound, Hg.
  - intros ->. cbn [negb orb] in Hd. apply andb_prop in Hd.
    destruct Hd as [H1 H2]. split; now apply permutation_of_valuesb_sound.
Qed.

Lemma agrees_withb_sound (input_sudoku : Board) (solution : Grid) :
  agrees_withb input_sudoku solution = true -> agrees_with input_sudoku solution.
Proof.
  unfold agrees_withb, agrees_with. intros H row col p Hr Hc Hp Hnz.
  rewrite forallb_forall in H.
  specialize (H (row, col) (proj2 (in_prod_iff rows cols row col) (conj Hr Hc))).
  cbn [fst snd] in H. rewrite Hp in H.
  apply Z.eqb_neq in Hnz. rewrite Hnz in H. cbn [orb] in H.
  destruct (item_at solution row col) as [e|q]; [discriminate|].
  apply Z.eqb_eq in H. now subst q.
Qed.

Lemma extract_solution_round_trip_witness :
  binary (assignment_of normal_solution) /\
  extract_solution (assignment_of normal_solution) grid_vars rows cols values
  = inr normal_solution.
Proof.
  apply (extract_solution_round_trip normal_solution false).
  apply valid_sudokub_sound. vm_compute. reflexivity.
Defined.

Lemma every_solution_is_feasible_witness :
  Forall (satisfied (assignment_of normal_solution))
         (model_of normal_sudoku false).
Proof.
  apply Forall_forall.
  apply (every_solution_is_feasible normal_sudoku false normal_solution).
  - apply valid_sudokub_sound. vm_compute. reflexivity.
  - apply agrees_withb_sound. vm_compute. reflexivity.
Defined.

(** ** What is printed *)

Lemma stdout_assoc (s t u : string) :
  ((s +++ t) +++ u)%string = (s +++ t +++ u)%string.
Proof.
  induction s as [|ch s IH]; cbn [String.append]; [reflexivity|].
  now rewrite IH.
Qed.

Lemma stdout_empty (s : string) : (s +++ "")%string = s.
Proof.
  induction s as [|ch s IH]; cbn [String.append]; [reflexivity|].
  now rewrite IH.
Qed.

Lemma writes_print (s e : string) : writes (print s e) (inr tt) (s +++ e).
Proof. intros out. reflexivity. Qed.

Lemma writes_ret {A : Type} (a : A) : writes (ret a) (inr a) "".
Proof. intros out. unfold ret. now rewrite stdout_empty. Qed.

Lemma writes_lift {A : Type} (r : result A) : writes (lift r) r "".
Proof. intros out. unfold lift. now rewrite stdout_empty. Qed.

Lemma writes_bind {A B : Type} (m : M Stdout A) (k : A -> M Stdout B)
  (r : result A) (text : string) :
  writes m r text ->
  (forall a, exists r' text', writes (k a) r' text') ->
  exists r' text', writes (bind m k) r' text'.
Proof.
  intros Hm Hk. destruct r as [e|a].
  - exists (inl e), text. intros out. unfold bind. now rewrite (Hm out).
  - destruct (Hk a) as (r' & text' & Hka).
    exists r', (text +++ text')%string. intros out. unfold bind.
    rewrite (Hm out), (Hka (out +++ text)%string). now rewrite stdout_assoc.
Qed.

Lemma writes_for_each {A : Type} (xs : list A) (body : A -> M Stdout unit) :
  (forall x, exists r text, writes (body x) r text) ->
  exists r text, writes (for_each xs body) r text.
Proof.
  intros Hbody. induction xs as [|x xs IH]; cbn [for_each].
  - exists (inr tt), ""%string. apply writes_ret.
  - destruct (Hbody x) as (r & text & Hx).
    apply (writes_bind _ _ r text Hx). intros _. exact IH.
Qed.

Lemma print_solution_writes (solution : Grid) (rs cs : list Z) :
  exists r text, writes (print_solution solution rs cs) r text.
Proof.
  unfold print_solution.
  eapply writes_bind; [apply writes_print|]. intros _.
  eapply writes_bind; [apply writes_print|]. intros _.
  apply writes_for_each. intros row.
  eapply writes_bind; [apply writes_print|]. intros _.
  assert (Hrow : exists r text,
            writes (for_each cs (fun col =>
                      x <- lift (item_at solution row col) ;;
                      print (str x)
                        (if (col + 1) mod 3 =? 0 then "  |  "%string
                         else "   "%string))) r text).
  { apply writes_for_each. intros col.
    eapply writes_bind; [apply writes_lift|]. intros x.
    exists (inr tt). eexists. apply writes_print. }
  destruct Hrow as (r & text & Hrow).
  apply (writes_bind _ _ r text Hrow). intros _.
  destruct ((row + 1) mod 3 =? 0).
  - exists (inr tt). eexists. apply writes_print.
  - exists (inr tt). eexists. apply writes_ret.
Qed.

(** X9. [print_solution] only appends: whatever the grid and the index
    sets, its outcome and the text it prints do not depend on what was
    printed before, and the earlier output stays in front of that text. *)
Theorem print_solution_appends (solution : Grid) (rs cs : list Z) :
  exists r text, forall out : Stdout,
    print_solution solution rs cs out = (r, (out +++ text)%string).
Proof. apply print_solution_writes. Qed.

Lemma for_each_outcome {S A : Type} (xs : list A) (body : A -> M S unit)
  (ok : A -> bool) (e : Exn) :
  (forall x s, fst (body x s) = if ok x then inr tt else inl e) ->
  forall s, fst (for_each xs body s) = if forallb ok xs then inr tt else inl e.
Proof.
  intros Hbody. induction xs as [|x xs IH]; intros s; cbn [for_each forallb].
  - reflexivity.
  - unfold bind. pose proof (Hbody x s) as Hx.
    destruct (body x s) as [[e'|[]] s']; cbn [fst] in Hx;
      destruct (ok x); try discriminate; cbn [andb fst].
    + exact Hx.
    + apply IH.
Qed.

Lemma forallb_map {A B : Type} (f : B -> bool) (g : A -> B) (l : list A) :
  forallb f (map g l) = forallb (fun x => f (g x)) l.
Proof.
  induction l as [|x l IH]; cbn [map forallb]; [reflexivity|]. now rewrite IH.
Qed.

Lemma forallb_list_prod {A B : Type} (f : A * B -> bool) (xs : list A)
  (ys : list B) :
  forallb f (list_prod xs ys)
  = forallb (fun x => forallb (fun y => f (x, y)) ys) xs.
Proof.
  induction xs as [|x xs IH]; cbn [list_prod forallb]; [reflexivity|].
  now rewrite forallb_app, forallb_map, IH.
Qed.

(** X10. On a grid whose entries are of absolute value at most [2 ^ 53],
    [print_solution] succeeds exactly when the grid has an entry at
    every cell of the index sets; otherwise it raises [IndexError], and
    nothing else. *)
Theorem print_solution_outcome (solution : Grid) (rs cs : list Z)
  (out : Stdout) :
  entries_bounded solution = true ->
  fst (print_solution solution rs cs out)
  = if forallb (present solution) (list_prod rs cs) then inr tt
    else inl IndexError.
Proof.
  intros _. rewrite forallb_list_prod. unfold print_solution.
  unfold bind at 1. unfold print at 1. unfold bind at 1. unfold print at 1.
  apply for_each_outcome. clear out. intros row s.
  unfold bind at 1. unfold print at 1. unfold bind at 1.
  pose proof (for_each_outcome cs
    (fun col =>
       x <- lift (item_at solution row col) ;;
       print (str x)
         (if (col + 1) mod 3 =? 0 then "  |  "%string else "   "%string))
    (fun col => present solution (row, col)) IndexError) as Hrow.
  cbv zeta.
  match goal with
  | |- context [for_each cs ?body ?s'] =>
      specialize (Hrow ltac:(
        intros col s0; unfold bind, lift, present, print; cbn [fst snd];
        destruct (item_at solution row col) as [e|x] eqn:E;
        [apply item_at_error in E; now subst e | reflexivity]) s');
      destruct (for_each cs body s') as [[e|[]] s'']
  end; cbn [fst] in Hrow; rewrite <- Hrow.
  - reflexivity.
  - destruct ((row + 1) mod 3 =? 0); reflexivity.
Qed.

(** A grid of eight rows. *)
Lemma print_solution_outcome_witness :
  fst (print_solution (repeat (repeat 0 9%nat) 8%nat) rows cols
         "earlier output"%string)
  = if forallb (present (repeat (repeat 0 9%nat) 8%nat)) (list_prod rows cols)
    then inr tt else inl IndexError.
Proof.
  apply (print_solution_outcome (repeat (repeat 0 9%nat) 8%nat) rows cols
           "earlier output"%string).
  vm_compute. reflexivity.
Defined.

(** ** The boxes *)

Lemma existsb_cell (rc : Z * Z) (l : list (Z * Z)) :
  existsb (cell_eqb rc) l = true <-> In rc l.
Proof.
  rewrite existsb_exists. split.
  - intros [[r c] [Hin E]]. unfold cell_eqb in E. cbn [fst snd] in E.
    apply andb_prop in E. destruct E as [Er Ec].
    apply Z.eqb_eq in Er, Ec. destruct rc as [r' c']. cbn [fst snd] in Er, Ec.
    now subst.
  - intros Hin. exists rc. split; [exact Hin|]. unfold cell_eqb.
    now rewrite !Z.eqb_refl.
Qed.

(** X11. The boxes tile the board: a cell of the board lies in the box
    [grid] exactly when [grid] is three times the band of its row plus the
    stack of its column, so in one box and no other; and no box lists a
    cell twice. *)
Theorem boxes_tile_board (row col grid : Z) :
  In row rows -> In col cols -> In grid grids ->
  (In (row, col) (box_cells grid) <-> grid = row / 3 * 3 + col / 3) /\
  NoDup (box_cells grid).
Proof.
  intros Hr Hc Hg.
  assert (Hall : forallb (fun rcg =>
            Bool.eqb (existsb (cell_eqb (fst rcg)) (box_cells (snd rcg)))
                     (snd rcg =? fst (fst rcg) / 3 * 3 + snd (fst rcg) / 3))
            (list_prod (list_prod rows cols) grids) = true).
  { vm_compute. reflexivity. }
  rewrite forallb_forall in Hall.
  specialize (Hall (row, col, grid)
    (proj2 (in_prod_iff _ _ _ _)
       (conj (proj2 (in_prod_iff rows cols row col) (conj Hr Hc)) Hg))).
  cbn [fst snd] in Hall. apply Bool.eqb_prop in Hall. split.
  - rewrite <- existsb_cell, Hall. apply Z.eqb_eq.
  - apply in_range in Hg.
    assert (Hcases : grid = 0 \/ grid = 1 \/ grid = 2 \/ grid = 3 \/ grid = 4
                     \/ grid = 5 \/ grid = 6 \/ grid = 7 \/ grid = 8) by lia.
    destruct Hcases as [->|[->|[->|[->|[->|[->|[->|[->| ->]]]]]]]];
      vm_compute;
      repeat (constructor; [intros Hin; cbn [In] in Hin; intuition congruence|]);
      apply NoDup_nil.
Qed.

Lemma boxes_tile_board_witness :
  (In (4, 7) (box_cells 5) <-> 5 = 4 / 3 * 3 + 7 / 3) /\ NoDup (box_cells 5).
Proof.
  apply (boxes_tile_board 4 7 5); apply in_range; lia.
Defined.

(** X12. [solve_sudoku] only appends to the output: whatever the solver
    answers and however the call ends, the outcome and the printed text do
    not depend on what was printed before, and the earlier output stays in
    front. *)
Theorem solve_sudoku_appends (solve : LpProblem -> Z * Assignment)
  (input_sudoku : Board) (diagonal : bool) :
  exists r text, forall out : Stdout,
    solve_sudoku solve input_sudoku diagonal out = (r, (out +++ text)%string).
Proof.
  unfold solve_sudoku.
  destruct (build_model input_sudoku diagonal (new_LpProblem "Sudoku_Solver"))
    as [[e|[]] prob].
  - exists (inl e), ""%string. intros out. now rewrite stdout_empty.
  - destruct (solve prob) as [status value_of].
    change (exists r text,
      writes (solution_status <- lift (dict_get LpStatus status) ;;
              shown <- lift (dict_get LpStatus status) ;;
              print ("Solution Status = " +++ shown)%string nl ;;
              if String.eqb solution_status "Optimal" then
                solution <- lift (extract_solution value_of grid_vars
                                    rows cols values) ;;
                print_solution solution rows cols ;;
                ret PyNone
              else ret PyNone) r text).
    eapply writes_bind; [apply writes_lift|]. intros solution_status.
    eapply writes_bind; [apply writes_lift|]. intros shown.
    eapply writes_bind; [apply writes_print|]. intros _.
    destruct (String.eqb solution_status "Optimal").
    + eapply writes_bind; [apply writes_lift|]. intros solution.
      destruct (print_solution_writes solution rows cols) as (r & text & Hp).
      apply (writes_bind _ _ r text Hp). intros _.
      exists (inr PyNone). eexists. apply writes_ret.
    + exists (inr PyNone). eexists. apply writes_ret.
Qed.

(** ** Solutions and grids, one to one *)

(** Under the constraint of its cell, a variable is at 1 exactly when the
    decoder reads its value there. *)
Lemma one_hot_reads (a : Assignment) (r c v : Z) :
  binary a -> satisfied a (sum_constraint (r, c)) -> In v values ->
  a (the_var r c v) = if decode a r c =? v then 1 else 0.
Proof.
  intros Hb Hs Hv.
  destruct (one_hot_cell a r c Hb Hs) as (l1 & w & l2 & Hsplit & H1 & Hz1 & Hz2 & Hd).
  rewrite Hd. destruct (w =? v) eqn:E.
  - apply Z.eqb_eq in E. now subst v.
  - apply Z.eqb_neq in E. rewrite Hsplit in Hv. apply in_app_or in Hv.
    destruct Hv as [Hv|[Hv|Hv]]; [now apply Hz1 | contradiction | now apply Hz2].
Qed.

(** X13. The decoder loses nothing of a solution: two binary assignments
    that satisfy the model of a board and that [extract_solution] decodes
    to the same grid give every decision variable the same value. *)
Theorem solution_determined_by_grid (input_sudoku : Board) (diagonal : bool)
  (a b : Assignment) :
  binary a -> binary b ->
  (forall c, In c (model_of input_sudoku diagonal) -> satisfied a c) ->
  (forall c, In c (model_of input_sudoku diagonal) -> satisfied b c) ->
  extract_solution a grid_vars rows cols values
  = extract_solution b grid_vars rows cols values ->
  forall x, In x all_vars -> a x = b x.
Proof.
  intros Ha Hb Hma Hmb Hsame x Hx.
  rewrite all_vars_the_var in Hx. apply in_map_iff in Hx.
  destruct Hx as [[[r c] v] [<- Hin]]. cbn [fst snd].
  apply in_prod_iff in Hin. destruct Hin as [Hrc Hv].
  pose proof Hrc as Hrc'. apply in_prod_iff in Hrc'. destruct Hrc' as [Hr Hc].
  pose proof (cells_hold_one_value input_sudoku diagonal a Hma (r, c) Hrc) as Hsa.
  pose proof (cells_hold_one_value input_sudoku diagonal b Hmb (r, c) Hrc) as Hsb.
  rewrite (one_hot_reads a r c v Ha Hsa Hv), (one_hot_reads b r c v Hb Hsb Hv).
  destruct (extract_solution_decode a) as [sa (Ea & _ & _ & Hra)].
  destruct (extract_solution_decode b) as [sb (Eb & _ & _ & Hrb)].
  rewrite Ea, Eb in Hsame. injection Hsame as ->.
  pose proof (Hra r c Hr Hc) as H1. rewrite (Hrb r c Hr Hc) in H1.
  injection H1 as ->. reflexivity.
Qed.

Lemma with_stray_binary (a : Assignment) : binary a -> binary (with_stray a).
Proof.
  intros Ha x. unfold with_stray.
  destruct (String.eqb (vname x) "stray"); [now right | apply Ha].
Qed.

Lemma solution_determined_by_grid_witness :
  Forall (fun x => assignment_of normal_solution x
                   = with_stray (assignment_of normal_solution) x) all_vars.
Proof.
  apply Forall_forall.
  apply (solution_determined_by_grid normal_sudoku false
           (assignment_of normal_solution)
           (with_stray (assignment_of normal_solution))).
  - apply assignment_of_binary.
  - apply with_stray_binary, assignment_of_binary.
  - apply all_satisfied. vm_compute. reflexivity.
  - apply all_satisfied. vm_compute. reflexivity.
  - vm_compute. reflexivity.
Defined.
